(** * pyblp.construction: panel IDs, ownership matrices and BLP instruments

    A shallow embedding of [pyblp/construction.py].  Python integers are [Z],
    numpy arrays are lists (one-dimensional) or a record of a column count and
    a list of rows (two-dimensional), raised exceptions are the [Raise]
    results of a small error monad.  Array entries that numpy stores as
    floating-point numbers are exact rationals here, with a separate
    constructor for the not-a-number padding value.  Market and firm IDs,
    which the source compares with [==] and sorts, are integers. *)

From Stdlib Require Import String.
From Stdlib Require Import List ZArith QArith Lia Bool Sorted.
Import ListNotations.

Local Open Scope Z_scope.

(** ** Exceptions *)

(** The exceptions the module raises.  Python's [ValueError] is raised both
    for bad scalar or mapping arguments ([InvalidArgument]) and for a
    [market_ids] field with several columns ([InvalidShape]); [TypeError] is
    [InvalidType] and [KeyError] is [MissingField].  [IndexError] and
    [EmptyReduction] (numpy's [ValueError] on the maximum of a zero-size array
    or on a concatenation of no arrays) come from numpy itself, and
    [ShapeMismatch] from the grouping engine. *)
Inductive error : Type :=
| InvalidArgument
| InvalidType
| MissingField
| InvalidShape
| IndexError
| EmptyReduction
| ShapeMismatch.

Inductive result (A : Type) : Type :=
| Ok (a : A)
| Raise (e : error).

Arguments Ok {A} a.
Arguments Raise {A} e.

Definition bind {A B : Type} (r : result A) (k : A -> result B) : result B :=
  match r with
  | Ok a => k a
  | Raise e => Raise e
  end.

Notation "x <- r ;; k" := (bind r (fun x => k))
  (at level 61, r at next level, right associativity).

(** ** Arrays *)

(** A two-dimensional array: [shape1] is numpy's [shape[1]], [rows] holds
    [shape[0]] rows. *)
Record ndarray (A : Type) : Type := mk_ndarray {
  shape1 : nat;
  rows : list (list A)
}.

Arguments mk_ndarray {A} shape1 rows.
Arguments shape1 {A} n.
Arguments rows {A} n.

Definition shape0 {A : Type} (M : ndarray A) : nat := length (rows M).

(** Every row of an array has [shape1] entries. *)
Definition rectangular {A : Type} (M : ndarray A) : Prop :=
  Forall (fun r => length r = shape1 M) (rows M).

(** [M[:, c]] *)
Definition column {A : Type} (d : A) (c : nat) (M : ndarray A) : list A :=
  map (fun r => nth c r d) (rows M).

(** [M[i, j]] *)
Definition entry {A : Type} (d : A) (M : ndarray A) (i j : nat) : A :=
  nth j (nth i (rows M) []) d.

(** [M.flat] *)
Definition flat {A : Type} (M : ndarray A) : list A := concat (rows M).

(** [np.arange(n)] *)
Definition arange (n : Z) : list Z := map Z.of_nat (seq 0 (Z.to_nat n)).

(** [np.tile(l, T)] for a one-dimensional [l] *)
Definition tile {A : Type} (l : list A) (T : Z) : list A :=
  concat (repeat l (Z.to_nat T)).

(** [np.repeat(l, J)] *)
Definition np_repeat {A : Type} (l : list A) (J : Z) : list A :=
  flat_map (fun x => repeat x (Z.to_nat J)) l.

(** [np.stack(cols, axis=1)] for one-dimensional columns of equal length *)
Definition stack_axis1 (cols : list (list Z)) : ndarray Z :=
  mk_ndarray (length cols)
    (map (fun i => map (fun col => nth i col 0) cols)
         (seq 0 (length (hd [] cols)))).

(** ** build_id_data *)

(** A Python object found as a key or value of a merger dictionary: an [int]
    or anything else. *)
Inductive pyobj : Type :=
| PyInt (z : Z)
| PyOther.

(** An element of [mergers]: a [dict], with its items in iteration order, or
    an object of another type. *)
Inductive merger : Type :=
| Dict (items : list (pyobj * pyobj))
| NotDict.

(** [isinstance(o, int)] *)
Definition isinstance_int (o : pyobj) : bool :=
  match o with PyInt _ => true | PyOther => false end.

(** [0 <= o <= F - 1] for an object that is an [int] *)
Definition between_0_and (F : Z) (o : pyobj) : bool :=
  match o with
  | PyInt f => (0 <=? f) && (f <=? F - 1)
  | PyOther => false
  end.

(** The condition of line 67, under which an item is rejected. *)
Definition bad_item (F : Z) (item : pyobj * pyobj) : bool :=
  let (f1, f2) := item in
  negb (isinstance_int f1) || negb (isinstance_int f2)
  || negb (between_0_and F f1) || negb (between_0_and F f2).

(** The loop of lines 63-68. *)
Fixpoint validate_mergers (F : Z) (mergers : list merger) : result unit :=
  match mergers with
  | [] => Ok tt
  | NotDict :: _ => Raise InvalidType
  | Dict items :: rest =>
      if existsb (bad_item F) items then Raise InvalidArgument
      else validate_mergers F rest
  end.

(** [ids[ids == f1] = f2] *)
Definition replace_ids (f1 f2 : Z) (ids : list Z) : list Z :=
  map (fun x => if x =? f1 then f2 else x) ids.

(** One iteration of the loop of lines 74-75.  Items that are not pairs of
    integers never reach it: validation has rejected them. *)
Definition apply_item (ids : list Z) (item : pyobj * pyobj) : list Z :=
  match item with
  | (PyInt f1, PyInt f2) => replace_ids f1 f2 ids
  | _ => ids
  end.

(** The body of the loop of lines 72-76: the column a merger adds, from a
    copy of the first column, changed in place item after item. *)
Definition changed_firm_ids (first : list Z) (m : merger) : list Z :=
  match m with
  | Dict items => fold_left apply_item items first
  | NotDict => first
  end.

(** [np.floor(np.tile(np.arange(J), T) * F / J)]: the products are exact
    integers and the floor of the quotient of two non-negative integers is
    [Z.div]; the floating-point quotient has the same floor as long as
    [J * F] stays below [2 ^ 53]. *)
Definition baseline_firm_ids (T J F : Z) : list Z :=
  map (fun p => p * F / J) (tile (arange J) T).

Definition firm_ids_list (T J F : Z) (mergers : list merger) : list (list Z) :=
  let first := baseline_firm_ids T J F in
  first :: map (changed_firm_ids first) mergers.

(** The fields handed to [structure_matrices]. *)
Record id_data : Type := mk_id_data {
  market_ids : list Z;
  firm_ids : ndarray Z
}.

Definition build_id_data (T J F : Z) (mergers : list merger) : result id_data :=
  if (T <? 1) || (F <? 1) then Raise InvalidArgument
  else if J <? F then Raise InvalidArgument
  else
    _ <- validate_mergers F mergers ;;
    Ok (mk_id_data (np_repeat (arange T) J)
                   (stack_axis1 (firm_ids_list T J F mergers))).

(** ** numpy operations used by the matrix builders *)

Fixpoint map2 {A B C : Type} (f : A -> B -> C) (l1 : list A) (l2 : list B)
  : list C :=
  match l1, l2 with
  | a :: l1', b :: l2' => f a b :: map2 f l1' l2'
  | _, _ => []
  end.

(** Keys are compared by value, through a three-way comparison. *)
Definition is_Eq (c : comparison) : bool :=
  match c with Eq => true | _ => false end.

Fixpoint insert_unique {K : Type} (cmp : K -> K -> comparison) (x : K)
  (l : list K) : list K :=
  match l with
  | [] => [x]
  | y :: l' =>
      match cmp x y with
      | Lt => x :: l
      | Eq => l
      | Gt => y :: insert_unique cmp x l'
      end
  end.

(** [np.unique(l)]: the sorted distinct values of [l]. *)
Definition np_unique {K : Type} (cmp : K -> K -> comparison) (l : list K)
  : list K :=
  fold_right (insert_unique cmp) [] l.

(** [l == t] followed by [.sum()]: the number of entries equal to [t]. *)
Definition count_eq (t : Z) (l : list Z) : nat :=
  length (filter (fun x => x =? t) l).

(** [np.unique(l, return_counts=True)[1]] *)
Definition unique_counts (l : list Z) : list nat :=
  map (fun t => count_eq t l) (np_unique Z.compare l).

(** [a.max()], which numpy refuses on a zero-size array. *)
Definition np_max (l : list nat) : result nat :=
  match l with
  | [] => Raise EmptyReduction
  | x :: l' => Ok (fold_left Nat.max l' x)
  end.

(** [ids[keys == t]], for [keys] and [ids] of the same length, as the rows
    of one table are; numpy refuses a mask of another length. *)
Definition select_eq (t : Z) (keys ids : list Z) : list Z :=
  map snd (filter (fun p => fst p =? t) (combine keys ids)).

(** [np.tile(np.c_[ids], n)]: row [j] repeats [ids[j]] [n] times. *)
Definition tile_column (ids : list Z) (n : nat) : list (list Z) :=
  map (fun f => repeat f n) ids.

(** [M.T] for rows of [n] entries *)
Definition transpose (n : nat) (M : list (list Z)) : list (list Z) :=
  map (fun c => map (fun r => nth c r 0) M) (seq 0 n).

(** An entry of an ownership matrix: a weight or numpy's [nan]. *)
Inductive cell : Type :=
| Num (q : Q)
| NaN.

(** [np.full((n, J), np.nan)] *)
Definition full_nan (n J : nat) : list (list cell) := repeat (repeat NaN J) n.

(** [M[:, :n] = values] *)
Definition assign_leading (n : nat) (M : list (list cell))
  (values : list (list Q)) : list (list cell) :=
  map2 (fun r v => map Num v ++ skipn n r) M values.

(** [np.vstack(blocks)], refused on an empty list. *)
Definition vstack {A : Type} (blocks : list (ndarray A)) : result (ndarray A) :=
  match blocks with
  | [] => Raise EmptyReduction
  | b :: _ => Ok (mk_ndarray (shape1 b) (flat_map rows blocks))
  end.

(** [np.c_[M1, M2]] for arrays with the same number of rows *)
Definition hstack2 {A : Type} (M1 M2 : ndarray A) : ndarray A :=
  mk_ndarray (shape1 M1 + shape1 M2) (map2 (@app A) (rows M1) (rows M2)).

(** [np.hstack(stacks)], refused on an empty list: row [i] of the result is
    made of the rows [i] of the stacks, side by side. *)
Definition hstack {A : Type} (stacks : list (ndarray A)) : result (ndarray A) :=
  match stacks with
  | [] => Raise EmptyReduction
  | s :: _ =>
      Ok (mk_ndarray (list_sum (map shape1 stacks))
            (map (fun i => concat (map (fun s' => nth i (rows s') []) stacks))
                 (seq 0 (shape0 s))))
  end.

(** [mapM] of the error monad: the first exception ends the loop. *)
Fixpoint for_each {A B : Type} (f : A -> result B) (l : list A)
  : result (list B) :=
  match l with
  | [] => Ok []
  | a :: l' => b <- f a ;; bs <- for_each f l' ;; Ok (b :: bs)
  end.

(** ** build_ownership *)

(** The [kappa_specification] argument: [None], a callable of two firm IDs
    returning a weight, or any other object. *)
Inductive kappa_arg : Type :=
| KappaNone
| KappaCallable (kappa : Z -> Z -> Q)
| KappaOther.

(** A function applied entry by entry to two arrays of one shape, as
    [np.where(f == g, 1, 0)] and [np.vectorize(kappa)] do. *)
Definition elementwise (k : Z -> Z -> Q) (fs gs : list (list Z))
  : list (list Q) :=
  map2 (map2 k) fs gs.

(** Lines 176-182. *)
Definition resolve_kappa (k : kappa_arg)
  : result (list (list Z) -> list (list Z) -> list (list Q)) :=
  match k with
  | KappaNone => Ok (elementwise (fun f g => if f =? g then 1%Q else 0%Q))
  | KappaCallable kappa => Ok (elementwise kappa)
  | KappaOther => Raise InvalidArgument
  end.

(** Lines 192-195: the padded block of one market. *)
Definition ownership_t
  (kappa : list (list Z) -> list (list Z) -> list (list Q))
  (J : nat) (ids_t : list Z) : ndarray cell :=
  let size := length ids_t in
  let tiled_ids_t := tile_column ids_t size in
  mk_ndarray J
    (assign_leading size (full_nan size J)
       (kappa tiled_ids_t (transpose size tiled_ids_t))).

(** Lines 190-197: the vertical stack built from one column of firm IDs. *)
Definition ownership_stack
  (kappa : list (list Z) -> list (list Z) -> list (list Q))
  (J : nat) (markets : list Z) (ids : list Z) : result (ndarray cell) :=
  vstack
    (map (fun t => ownership_t kappa J (select_eq t markets ids))
         (np_unique Z.compare markets)).

(** ** Groups *)

(** Modelled from the spec: the class [Groups] of [utilities.basics], which
    is not part of the sources at hand.  It is built from one key per row,
    holds the group of every row and the member rows of every group, the
    groups being the distinct keys in sorted order; [sum] adds the member rows
    of each group, column by column, and refuses a matrix with another number
    of rows; [expand] gives every row the value of its group. *)
Record Groups : Type := mk_Groups {
  group_size : nat;
  group_of_row : list nat;
  members : list (list nat)
}.

Fixpoint index_of {K : Type} (cmp : K -> K -> comparison) (k : K)
  (l : list K) : nat :=
  match l with
  | [] => O
  | u :: l' => if is_Eq (cmp k u) then O else S (index_of cmp k l')
  end.

Definition positions {K : Type} (cmp : K -> K -> comparison) (u : K)
  (ids : list K) : list nat :=
  map fst
    (filter (fun p => is_Eq (cmp (snd p) u))
            (combine (seq 0 (length ids)) ids)).

Definition make_Groups {K : Type} (cmp : K -> K -> comparison) (ids : list K)
  : Groups :=
  let unique := np_unique cmp ids in
  mk_Groups (length ids)
    (map (fun k => index_of cmp k unique) ids)
    (map (fun u => positions cmp u ids) unique).

Definition add_rows (r1 r2 : list Q) : list Q := map2 Qplus r1 r2.

Definition sum_rows (width : nat) (rs : list (list Q)) : list Q :=
  fold_right add_rows (repeat 0%Q width) rs.

Definition Groups_sum (g : Groups) (X : ndarray Q) : result (ndarray Q) :=
  if Nat.eqb (shape0 X) (group_size g) then
    Ok (mk_ndarray (shape1 X)
          (map (fun idx => sum_rows (shape1 X)
                             (map (fun i => nth i (rows X) []) idx))
               (members g)))
  else Raise ShapeMismatch.

Definition Groups_expand (g : Groups) (V : ndarray Q) : ndarray Q :=
  mk_ndarray (shape1 V) (map (fun i => nth i (rows V) []) (group_of_row g)).

(** [M1 - M2] for arrays of one shape *)
Definition subtract (M1 M2 : ndarray Q) : ndarray Q :=
  mk_ndarray (shape1 M1) (map2 (map2 Qminus) (rows M1) (rows M2)).

(** Lexicographic comparison of (market, firm) tuples. *)
Definition pair_compare (p q : Z * Z) : comparison :=
  match fst p ?= fst q with
  | Eq => snd p ?= snd q
  | c => c
  end.

(** [firm_ids[:, [i]]]: a negative index counts from the last column, an
    index outside [-k .. k-1] is refused. *)
Definition take_column (M : ndarray Z) (i : Z) : result (ndarray Z) :=
  let k := Z.of_nat (shape1 M) in
  if (0 <=? i) && (i <? k) then
    Ok (mk_ndarray 1 (map (fun r => [nth (Z.to_nat i) r 0]) (rows M)))
  else if (- k <=? i) && (i <? 0) then
    Ok (mk_ndarray 1 (map (fun r => [nth (Z.to_nat (k + i)) r 0]) (rows M)))
  else Raise IndexError.

(** ** The builders over a product table *)

Section Construction.

(** The structured table and [extract_matrix] of [utilities.basics] are
    taken as they are used: a lookup of a named field that gives its matrix,
    or [None] when the table has no such field. *)
Variable product_data : Type.
Variable extract_matrix : product_data -> string -> option (ndarray Z).

(** The [formulation] argument: a [Formulation], given by the matrix its
    [_build_matrix] method builds from a table, or any other object. *)
Inductive formulation_arg : Type :=
| Formulation (_build_matrix : product_data -> ndarray Q)
| NotFormulation.

Definition build_ownership (pd : product_data)
  (kappa_specification : kappa_arg) : result (ndarray cell) :=
  let market_ids := extract_matrix pd "market_ids" in
  let firm_ids := extract_matrix pd "firm_ids" in
  match market_ids with
  | None => Raise MissingField
  | Some market_ids =>
      match firm_ids with
      | None => Raise MissingField
      | Some firm_ids =>
          if Nat.ltb 1 (shape1 market_ids) then Raise InvalidShape
          else
            kappa <- resolve_kappa kappa_specification ;;
            J <- np_max (unique_counts (flat market_ids)) ;;
            stacks <- for_each
                        (fun c => ownership_stack kappa J (flat market_ids)
                                    (column 0 c firm_ids))
                        (seq 0 (shape1 firm_ids)) ;;
            hstack stacks
      end
  end.

Definition build_matrix (formulation : formulation_arg) (data : product_data)
  : result (ndarray Q) :=
  match formulation with
  | NotFormulation => Raise InvalidType
  | Formulation _build_matrix => Ok (_build_matrix data)
  end.

(** The rows of the one-column arrays [market_ids] and [firm_ids] are
    identified with their single entry, so that the tuples of [paired_ids]
    are pairs of integers. *)
Definition build_blp_instruments (formulation : formulation_arg)
  (pd : product_data) (firms_index : Z) : result (ndarray Q) :=
  let market_ids := extract_matrix pd "market_ids" in
  let firm_ids := extract_matrix pd "firm_ids" in
  match market_ids, firm_ids with
  | Some market_ids, Some firm_ids =>
      if Nat.ltb 1 (shape1 market_ids) then Raise InvalidShape
      else
        firm_ids <- take_column firm_ids firms_index ;;
        let paired_ids := combine (flat market_ids) (flat firm_ids) in
        let paired_groups := make_Groups pair_compare paired_ids in
        let market_groups := make_Groups Z.compare (flat market_ids) in
        X <- build_matrix formulation pd ;;
        paired_sums <- Groups_sum paired_groups X ;;
        let other := subtract (Groups_expand paired_groups paired_sums) X in
        market_sums <- Groups_sum market_groups X ;;
        let rival :=
          subtract (subtract (Groups_expand market_groups market_sums) X)
                   other in
        Ok (hstack2 (hstack2 X other) rival)
  | _, _ => Raise MissingField
  end.

End Construction.

Arguments Formulation {product_data} _build_matrix.
Arguments NotFormulation {product_data}.
Arguments build_ownership {product_data} extract_matrix pd kappa_specification.
Arguments build_matrix {product_data} formulation data.
Arguments build_blp_instruments {product_data} extract_matrix formulation pd
  firms_index.

(** ** Vocabulary of the statements *)

(** An object that is an integer firm ID between [0] and [F - 1]. *)
Definition firm_id (F : Z) (o : pyobj) : Prop :=
  exists f, o = PyInt f /\ 0 <= f <= F - 1.

(** An object that is an integer of the half-open range from [0] to
    [F - 1], which leaves [F - 1] out. *)
Definition in_half_open_range (F : Z) (o : pyobj) : Prop :=
  exists f, o = PyInt f /\ 0 <= f < F - 1.

(** A merger entry that passes validation: a dictionary from firm IDs to
    firm IDs. *)
Definition valid_merger (F : Z) (m : merger) : Prop :=
  exists items,
    m = Dict items /\
    forall k v, In (k, v) items -> firm_id F k /\ firm_id F v.

(** [m] is the first entry of [mergers] that does not pass validation. *)
Definition first_invalid (F : Z) (mergers : list merger) (m : merger) : Prop :=
  exists before after,
    mergers = before ++ m :: after /\
    Forall (valid_merger F) before /\
    ~ valid_merger F m.

(** Some key or value of some dictionary of [mergers] lies outside the
    half-open range. *)
Definition outside_half_open_range (F : Z) (mergers : list merger) : Prop :=
  exists items k v,
    In (Dict items) mergers /\ In (k, v) items /\
    (~ in_half_open_range F k \/ ~ in_half_open_range F v).

(** [f] is an integer key of the items of a merger. *)
Definition merger_key (items : list (pyobj * pyobj)) (f : Z) : Prop :=
  exists v, In (PyInt f, v) items.

(** What the loop of lines 74-75 does to one entry of the column. *)
Definition apply_item_to (x : Z) (item : pyobj * pyobj) : Z :=
  match item with
  | (PyInt f1, PyInt f2) => if x =? f1 then f2 else x
  | _ => x
  end.

Definition remap_id (items : list (pyobj * pyobj)) (x : Z) : Z :=
  fold_left apply_item_to items x.

(** [ceil(a / b)] for a positive [b] *)
Definition ceil_div (a b : Z) : Z := (a + b - 1) / b.

(** The number of rows whose market ID is smaller than [t]: the row at which
    the block of market [t] starts when blocks follow one another in the order
    of their market IDs. *)
Definition block_start (t : Z) (markets : list Z) : nat :=
  length (filter (fun x => x <? t) markets).

(** The weight function a [kappa_specification] stands for once resolved:
    the function given, or the identity default for [None]. *)
Definition weight_of (k : kappa_arg) (f g : Z) : Q :=
  match k with
  | KappaCallable kappa => kappa f g
  | _ => if f =? g then 1%Q else 0%Q
  end.

(** The ownership matrix of the identity cooperation: in the block of every
    market [t], which starts at row [block_start t], and in the stack of
    every column [c] of firm IDs, which starts at column [c * J], the entry at
    products [j] and [k] of the market is [1] when their firm IDs are equal
    and [0] otherwise; every diagonal entry of a block is [1]. *)
Definition identity_ownership (mids fids : ndarray Z) (M : ndarray cell)
  : Prop :=
  exists J,
    shape1 M = (shape1 fids * J)%nat /\
    forall c t,
      (c < shape1 fids)%nat -> In t (flat mids) ->
      let ids_t := select_eq t (flat mids) (column 0 c fids) in
      let start := block_start t (flat mids) in
      (length ids_t <= J)%nat /\
      (forall j k,
         (j < length ids_t)%nat -> (k < length ids_t)%nat ->
         entry NaN M (start + j) (c * J + k) =
         Num (if nth j ids_t 0 =? nth k ids_t 0 then 1 else 0)) /\
      (forall j,
         (j < length ids_t)%nat ->
         entry NaN M (start + j) (c * J + j) = Num 1).

(** The padded, stacked ownership matrix: [J] is the largest market size;
    there is one row per product, the block of market [t] starting at row
    [block_start t], after the blocks of all smaller market IDs; there are [J]
    columns per column of firm IDs, the stack of column [c] starting at
    column [c * J]; in the rows of market [t], the first [J_t] columns of a
    stack hold the weights of the pairs of products of the market and the
    columns from [J_t] on hold [NaN]. *)
Definition padded_ownership (karg : kappa_arg) (mids fids : ndarray Z)
  (M : ndarray cell) : Prop :=
  exists J,
    (exists t, In t (flat mids) /\ count_eq t (flat mids) = J) /\
    (forall t, count_eq t (flat mids) <= J)%nat /\
    shape0 M = list_sum (unique_counts (flat mids)) /\
    shape1 M = (shape1 fids * J)%nat /\
    rectangular M /\
    forall c t j col,
      (c < shape1 fids)%nat -> In t (flat mids) ->
      (j < count_eq t (flat mids))%nat -> (col < J)%nat ->
      let ids_t := select_eq t (flat mids) (column 0 c fids) in
      entry NaN M (block_start t (flat mids) + j) (c * J + col) =
      if (col <? count_eq t (flat mids))%nat
      then Num (weight_of karg (nth j ids_t 0) (nth col ids_t 0))
      else NaN.

Definition Qsum (l : list Q) : Q := fold_right Qplus 0%Q l.

(** The sum of column [c] of [X] over the rows that satisfy [P]. *)
Definition sum_where (P : nat -> bool) (X : ndarray Q) (c : nat) : Q :=
  Qsum (map (fun r => entry 0%Q X r c) (filter P (seq 0 (shape0 X)))).

(** [[X | other | rival]]: for every row [r] and column [c] of [X], the first
    block repeats [X], the second is the sum of [X] over the other rows with
    the market and the firm of [r], the third is the sum of [X] over the rows
    with the market of [r] and another firm, and the last two add up to the
    sum of [X] over the market of [r] minus [X] at [r]. *)
Definition blp_instruments (markets firms : list Z) (X B : ndarray Q)
  : Prop :=
  shape0 B = shape0 X /\
  shape1 B = (shape1 X + shape1 X + shape1 X)%nat /\
  forall r c,
    (r < shape0 X)%nat -> (c < shape1 X)%nat ->
    let same_market := fun r' => nth r' markets 0 =? nth r markets 0 in
    let same_firm := fun r' => nth r' firms 0 =? nth r firms 0 in
    let other := entry 0%Q B r (shape1 X + c) in
    let rival := entry 0%Q B r (shape1 X + shape1 X + c) in
    entry 0%Q B r c = entry 0%Q X r c /\
    (other ==
     sum_where (fun r' => same_market r' && same_firm r' && negb (r' =? r)%nat)
               X c)%Q /\
    (rival ==
     sum_where (fun r' => same_market r' && negb (same_firm r')) X c)%Q /\
    (other + rival == sum_where same_market X c - entry 0%Q X r c)%Q.

(** The stack [build_ownership] builds from column [c] of the firm IDs. *)
Definition stack_of (mids fids : ndarray Z) (k : Z -> Z -> Q) (J c : nat)
  : ndarray cell :=
  mk_ndarray J
    (flat_map (fun t => rows (ownership_t (elementwise k) J
                                (select_eq t (flat mids)
                                   (column 0 c fids))))
              (np_unique Z.compare (flat mids))).

(** A structured table as an association list from field names to matrices,
    with the lookup that stands for [extract_matrix] on it. *)
Definition table : Type := list (string * ndarray Z).

Fixpoint lookup_field (pd : table) (key : string) : option (ndarray Z) :=
  match pd with
  | [] => None
  | (name, M) :: pd' =>
      if String.eqb name key then Some M else lookup_field pd' key
  end.

(** A ragged panel: market [3] has two products and market [7] has three,
    the rows of the two markets being interleaved. *)
Definition ragged_table : table :=
  [("market_ids"%string, mk_ndarray 1 [[7]; [3]; [7]; [3]; [7]]);
   ("firm_ids"%string, mk_ndarray 1 [[0]; [1]; [0]; [1]; [2]])].

(** The panel of [build_id_data(T=2, J=5, F=4, mergers=[{2: 0}])]. *)
Definition merger_table : table :=
  [("market_ids"%string,
    mk_ndarray 1 [[0]; [0]; [0]; [0]; [0]; [1]; [1]; [1]; [1]; [1]]);
   ("firm_ids"%string,
    mk_ndarray 2 [[0; 0]; [0; 0]; [1; 1]; [2; 0]; [3; 3];
                  [0; 0]; [0; 0]; [1; 1]; [2; 0]; [3; 3]])].

(** A table with a two-column [market_ids] field and no [firm_ids] field. *)
Definition no_firm_ids_table : table :=
  [("market_ids"%string, mk_ndarray 2 [[0; 0]; [1; 1]])].

(** A table with a [firm_ids] field and no [market_ids] field. *)
Definition no_market_ids_table : table :=
  [("firm_ids"%string, mk_ndarray 1 [[0]; [1]])].

(** Two characteristics for the five products of [ragged_table]. *)
Definition ragged_characteristics : ndarray Q :=
  mk_ndarray 2 [[1; 2]; [3; 4]; [5; 6]; [7; 8]; [9; 10]]%Q.

(** The two fields of [ragged_table] and its ownership matrix under the
    identity cooperation. *)
Definition ragged_market_ids : ndarray Z :=
  mk_ndarray 1 [[7]; [3]; [7]; [3]; [7]].

Definition ragged_firm_ids : ndarray Z :=
  mk_ndarray 1 [[0]; [1]; [0]; [1]; [2]].

Definition ragged_ownership : ndarray cell :=
  mk_ndarray 3 [[Num 1; Num 1; NaN];
                [Num 1; Num 1; NaN];
                [Num 1; Num 1; Num 0];
                [Num 1; Num 1; Num 0];
                [Num 0; Num 0; Num 1]].

(** The two fields of [merger_table], one characteristic for its ten
    products, and the instruments built from it with the firm IDs of the
    last column. *)
Definition merger_market_ids : ndarray Z :=
  mk_ndarray 1 [[0]; [0]; [0]; [0]; [0]; [1]; [1]; [1]; [1]; [1]].

Definition merger_firm_ids : ndarray Z :=
  mk_ndarray 2 [[0; 0]; [0; 0]; [1; 1]; [2; 0]; [3; 3];
                [0; 0]; [0; 0]; [1; 1]; [2; 0]; [3; 3]].

Definition merger_characteristics : ndarray Q :=
  mk_ndarray 1 [[1]; [2]; [3]; [4]; [5]; [6]; [7]; [8]; [9]; [10]]%Q.

Definition merger_instruments : ndarray Q :=
  mk_ndarray 3 [[1; 6; 8]; [2; 5; 8]; [3; 0; 12]; [4; 3; 8]; [5; 0; 10];
                [6; 16; 18]; [7; 15; 18]; [8; 0; 32]; [9; 13; 18];
                [10; 0; 30]]%Q.

(** * Properties *)

(** ** Lists and arithmetic *)

Lemma length_flat_map_repeat {A : Type} (n : nat) (l : list A) :
  length (flat_map (fun x => repeat x n) l) = (length l * n)%nat.
Proof.
  induction l as [|a l IH]; simpl; [reflexivity|].
  now rewrite length_app, repeat_length, IH.
Qed.

Lemma nth_flat_map_repeat {A : Type} (n : nat) (l : list A) (d : A) :
  forall a b, (b < n)%nat -> (a < length l)%nat ->
  nth (a * n + b) (flat_map (fun x => repeat x n) l) d = nth a l d.
Proof.
  induction l as [|x l IH]; intros a b Hb Ha; simpl in *; [lia|].
  destruct a as [|a].
  - simpl. rewrite app_nth1 by (rewrite repeat_length; lia).
    apply nth_repeat_lt; assumption.
  - rewrite app_nth2 by (rewrite repeat_length; simpl; lia).
    rewrite repeat_length.
    replace (S a * n + b - n)%nat with (a * n + b)%nat by (simpl; lia).
    apply IH; lia.
Qed.

Lemma length_arange (n : Z) : length (arange n) = Z.to_nat n.
Proof. unfold arange. now rewrite length_map, length_seq. Qed.

Lemma nth_arange (n : Z) (i : nat) (d : Z) :
  (i < Z.to_nat n)%nat -> nth i (arange n) d = Z.of_nat i.
Proof.
  intros Hi. unfold arange.
  rewrite nth_indep with (d' := Z.of_nat 0) by (rewrite length_map, length_seq; lia).
  rewrite map_nth, seq_nth by assumption. reflexivity.
Qed.

Lemma In_arange (n p : Z) : In p (arange n) -> 0 <= p < n.
Proof.
  unfold arange. rewrite in_map_iff. intros [i [<- Hi]].
  apply in_seq in Hi. lia.
Qed.

Lemma length_tile {A : Type} (l : list A) (T : Z) :
  length (tile l T) = (Z.to_nat T * length l)%nat.
Proof.
  unfold tile. induction (Z.to_nat T) as [|n IH]; simpl; [reflexivity|].
  now rewrite length_app, IH.
Qed.


(** ** The panel builder *)

Lemma bad_item_false (F : Z) (k v : pyobj) :
  bad_item F (k, v) = false <-> firm_id F k /\ firm_id F v.
Proof.
  unfold bad_item, firm_id. split.
  - intros H.
    destruct k as [a|], v as [b|]; simpl in H; try discriminate.
    apply orb_false_iff in H. destruct H as [Ha Hb].
    apply negb_false_iff, andb_true_iff in Ha.
    apply negb_false_iff, andb_true_iff in Hb.
    split; eexists; (split; [reflexivity|lia]).
  - intros [[a [-> Ha]] [b [-> Hb]]]. simpl.
    replace (0 <=? a) with true by (symmetry; apply Z.leb_le; lia).
    replace (a <=? F - 1) with true by (symmetry; apply Z.leb_le; lia).
    replace (0 <=? b) with true by (symmetry; apply Z.leb_le; lia).
    replace (b <=? F - 1) with true by (symmetry; apply Z.leb_le; lia).
    reflexivity.
Qed.

Lemma no_bad_item (F : Z) (items : list (pyobj * pyobj)) :
  existsb (bad_item F) items = false <-> valid_merger F (Dict items).
Proof.
  unfold valid_merger. split.
  - intros H. exists items. split; [reflexivity|].
    intros k v Hin. apply bad_item_false.
    destruct (bad_item F (k, v)) eqn:E; [|reflexivity].
    assert (existsb (bad_item F) items = true) as Ht
      by (apply existsb_exists; eauto).
    congruence.
  - intros [items' [Heq Hall]]. injection Heq as <-.
    destruct (existsb (bad_item F) items) eqn:E; [|reflexivity].
    apply existsb_exists in E. destruct E as [[k v] [Hin Hbad]].
    apply Hall, bad_item_false in Hin. congruence.
Qed.

Lemma NotDict_invalid (F : Z) : ~ valid_merger F NotDict.
Proof. intros [items [H _]]. discriminate. Qed.

Lemma validate_mergers_Ok (F : Z) (mergers : list merger) :
  validate_mergers F mergers = Ok tt <-> Forall (valid_merger F) mergers.
Proof.
  induction mergers as [|m ms IH]; simpl.
  - split; auto.
  - destruct m as [items|].
    + destruct (existsb (bad_item F) items) eqn:E.
      * split; [discriminate|]. intros H. inversion H as [|? ? Hm _]; subst.
        apply no_bad_item in Hm. congruence.
      * rewrite IH. split.
        -- intros H. constructor; [apply no_bad_item|]; assumption.
        -- intros H. now inversion H.
    + split; [discriminate|]. intros H. inversion H as [|? ? Hm _]; subst.
      now apply NotDict_invalid in Hm.
Qed.

Lemma first_invalid_cons_valid (F : Z) (m m' : merger) (ms : list merger) :
  valid_merger F m' ->
  (first_invalid F (m' :: ms) m <-> first_invalid F ms m).
Proof.
  intros Hv. split.
  - intros [before [after [Heq [Hall Hm]]]].
    destruct before as [|b before]; simpl in Heq.
    + injection Heq as <- <-. contradiction.
    + injection Heq as <- ->. exists before, after.
      inversion Hall; subst. auto.
  - intros [before [after [-> [Hall Hm]]]].
    exists (m' :: before), after. auto.
Qed.

Lemma first_invalid_head (F : Z) (m m' : merger) (ms : list merger) :
  ~ valid_merger F m' ->
  (first_invalid F (m' :: ms) m <-> m = m').
Proof.
  intros Hv. split.
  - intros [before [after [Heq [Hall Hm]]]].
    destruct before as [|b before]; simpl in Heq.
    + now injection Heq.
    + injection Heq as <- ->. inversion Hall; subst. contradiction.
  - intros ->. exists [], ms. auto.
Qed.

Lemma validate_mergers_InvalidType (F : Z) (mergers : list merger) :
  validate_mergers F mergers = Raise InvalidType <->
  first_invalid F mergers NotDict.
Proof.
  induction mergers as [|m ms IH]; simpl.
  - split; [discriminate|].
    intros [before [after [Heq _]]]. now destruct before.
  - destruct m as [items|].
    + destruct (existsb (bad_item F) items) eqn:E.
      * rewrite first_invalid_head; [split; discriminate|].
        intros Hv. apply no_bad_item in Hv. congruence.
      * rewrite first_invalid_cons_valid by now apply no_bad_item.
        exact IH.
    + rewrite first_invalid_head by apply NotDict_invalid. tauto.
Qed.

Lemma validate_mergers_InvalidArgument (F : Z) (mergers : list merger) :
  validate_mergers F mergers = Raise InvalidArgument <->
  exists items, first_invalid F mergers (Dict items).
Proof.
  induction mergers as [|m ms IH]; simpl.
  - split; [discriminate|].
    intros [items [before [after [Heq _]]]]. now destruct before.
  - destruct m as [items|].
    + destruct (existsb (bad_item F) items) eqn:E.
      * split; [intros _|reflexivity].
        exists items. apply first_invalid_head; [|reflexivity].
        intros Hv. apply no_bad_item in Hv. congruence.
      * apply no_bad_item in E. rewrite IH.
        split; intros [items' H]; exists items';
          now apply (first_invalid_cons_valid F _ _ ms E).
    + split; [discriminate|]. intros [items H].
      apply first_invalid_head in H; [discriminate|apply NotDict_invalid].
Qed.

Lemma validate_mergers_unit (F : Z) (mergers : list merger) (u : unit) :
  validate_mergers F mergers = Ok u -> validate_mergers F mergers = Ok tt.
Proof. now destruct u. Qed.

Lemma nth_market_ids (T J i : Z) :
  0 < J -> 0 <= i < T * J ->
  nth (Z.to_nat i) (np_repeat (arange T) J) (-1) = i / J.
Proof.
  intros HJ Hi.
  assert (0 <= i / J < T) as Hq.
  { split; [apply Z.div_pos; lia|apply Z.div_lt_upper_bound; nia]. }
  pose proof (Z.mod_pos_bound i J HJ) as Hr.
  pose proof (Z.div_mod i J ltac:(lia)) as Hd.
  unfold np_repeat.
  replace (Z.to_nat i)
    with (Z.to_nat (i / J) * Z.to_nat J + Z.to_nat (i mod J))%nat by nia.
  rewrite nth_flat_map_repeat by (rewrite ?length_arange; lia).
  rewrite nth_arange by lia. lia.
Qed.

Lemma length_market_ids (T J : Z) :
  length (np_repeat (arange T) J) = (Z.to_nat T * Z.to_nat J)%nat.
Proof.
  unfold np_repeat. now rewrite length_flat_map_repeat, length_arange.
Qed.

Lemma length_baseline (T J F : Z) :
  length (baseline_firm_ids T J F) = (Z.to_nat T * Z.to_nat J)%nat.
Proof.
  unfold baseline_firm_ids.
  now rewrite length_map, length_tile, length_arange.
Qed.





Lemma build_id_data_Ok (T J F : Z) (mergers : list merger) (d : id_data) :
  build_id_data T J F mergers = Ok d ->
  1 <= T /\ 1 <= F /\ F <= J /\ Forall (valid_merger F) mergers /\
  d = mk_id_data (np_repeat (arange T) J)
                 (stack_axis1 (firm_ids_list T J F mergers)).
Proof.
  unfold build_id_data.
  destruct (T <? 1) eqn:ET; [discriminate|].
  destruct (F <? 1) eqn:EF; [discriminate|].
  destruct (J <? F) eqn:EJ; [discriminate|]. simpl.
  destruct (validate_mergers F mergers) as [u|e] eqn:EV; [|discriminate].
  simpl. intros [= <-].
  apply validate_mergers_unit, validate_mergers_Ok in EV.
  apply Z.ltb_ge in ET, EF, EJ. repeat split; (lia || assumption).
Qed.



Lemma validate_mergers_raises (F : Z) (mergers : list merger) (e : error) :
  validate_mergers F mergers = Raise e ->
  e = InvalidArgument \/ e = InvalidType.
Proof.
  induction mergers as [|m ms IH]; simpl; [discriminate|].
  destruct m as [items|].
  - destruct (existsb (bad_item F) items); [|exact IH].
    intros [= <-]. now left.
  - intros [= <-]. now right.
Qed.

Lemma build_id_data_valid (T J F : Z) (mergers : list merger) :
  1 <= T -> 1 <= F -> F <= J ->
  build_id_data T J F mergers =
  (_ <- validate_mergers F mergers ;;
   Ok (mk_id_data (np_repeat (arange T) J)
                  (stack_axis1 (firm_ids_list T J F mergers)))).
Proof.
  intros HT HF HJ. unfold build_id_data.
  replace (T <? 1) with false by (symmetry; apply Z.ltb_ge; lia).
  replace (F <? 1) with false by (symmetry; apply Z.ltb_ge; lia).
  replace (J <? F) with false by (symmetry; apply Z.ltb_ge; lia).
  reflexivity.
Qed.

Lemma build_id_data_invalid (T J F : Z) (mergers : list merger) :
  T < 1 \/ F < 1 \/ J < F ->
  build_id_data T J F mergers = Raise InvalidArgument.
Proof.
  intros H. unfold build_id_data.
  destruct (T <? 1) eqn:ET; [reflexivity|].
  destruct (F <? 1) eqn:EF; [reflexivity|].
  destruct (J <? F) eqn:EJ; [reflexivity|].
  apply Z.ltb_ge in ET, EF, EJ. lia.
Qed.

(** C3, as the code has it: [InvalidArgument] is raised exactly when [T],
    [F] or [J] is out of bounds or the first merger entry that fails
    validation is a dictionary (with a key or a value that is not an integer
    between [0] and [F - 1], both included); [InvalidType] exactly when the
    bounds hold and the first entry that fails validation is not a
    dictionary; otherwise the call succeeds with [T * J] rows, row [i]
    carrying the market ID [i / J]. *)
Theorem build_id_data_outcomes (T J F : Z) (mergers : list merger) :
  (build_id_data T J F mergers = Raise InvalidArgument <->
   T < 1 \/ F < 1 \/ J < F \/
   exists items, first_invalid F mergers (Dict items)) /\
  (build_id_data T J F mergers = Raise InvalidType <->
   1 <= T /\ 1 <= F /\ F <= J /\ first_invalid F mergers NotDict) /\
  (build_id_data T J F mergers <> Raise InvalidArgument ->
   build_id_data T J F mergers <> Raise InvalidType ->
   exists d,
     build_id_data T J F mergers = Ok d /\
     length (market_ids d) = Z.to_nat (T * J) /\
     shape0 (firm_ids d) = Z.to_nat (T * J) /\
     forall i, 0 <= i < T * J ->
               nth (Z.to_nat i) (market_ids d) (-1) = i / J).
Proof.
  destruct (Z.lt_ge_cases T 1) as [HT|HT];
    [|destruct (Z.lt_ge_cases F 1) as [HF|HF];
      [|destruct (Z.lt_ge_cases J F) as [HJ|HJ]]].
  1-3: rewrite build_id_data_invalid by lia;
    (split; [tauto|]); (split; [|congruence]);
    (split; [discriminate|lia]).
  rewrite build_id_data_valid by assumption.
  destruct (validate_mergers F mergers) as [[]|e] eqn:EV; simpl.
  - apply validate_mergers_Ok in EV. repeat split; try discriminate.
    + intros [?|[?|[?|[items [before [after [-> [_ Hbad]]]]]]]]; try lia.
      apply Forall_app in EV. destruct EV as [_ EV].
      inversion EV; subst. contradiction.
    + intros [_ [_ [_ [before [after [-> [_ Hbad]]]]]]].
      apply Forall_app in EV. destruct EV as [_ EV].
      inversion EV; subst. contradiction.
    + intros _ _. eexists. split; [reflexivity|]. cbn [market_ids firm_ids].
      unfold shape0, stack_axis1, firm_ids_list. cbn [rows hd].
      rewrite length_map, length_seq, length_market_ids, length_baseline.
      rewrite Z2Nat.inj_mul by lia.
      repeat split; try reflexivity.
      intros i Hi. apply nth_market_ids; lia.
  - destruct (validate_mergers_raises _ _ _ EV) as [-> | ->].
    + pose proof EV as EV'. apply validate_mergers_InvalidArgument in EV.
      repeat split; try tauto; try discriminate; try congruence.
      intros [_ [_ [_ H]]].
      apply validate_mergers_InvalidType in H. congruence.
    + pose proof EV as EV'. apply validate_mergers_InvalidType in EV.
      repeat split; try tauto; try discriminate; try congruence.
      intros [?|[?|[?|H]]]; try lia.
      apply validate_mergers_InvalidArgument in H. congruence.
Qed.

Lemma build_id_data_outcomes_witness :
  exists d,
    build_id_data 2 5 4 [Dict [(PyInt 2, PyInt 0)]] = Ok d /\
    length (market_ids d) = Z.to_nat (2 * 5) /\
    shape0 (firm_ids d) = Z.to_nat (2 * 5) /\
    forall i, 0 <= i < 2 * 5 ->
              nth (Z.to_nat i) (market_ids d) (-1) = i / 5.
Proof.
  apply (build_id_data_outcomes 2 5 4 [Dict [(PyInt 2, PyInt 0)]]);
    vm_compute; discriminate.
Defined.

(** C3 as stated fails: with [F = 2] the merger [{0: 1}] has the value
    [1 = F - 1], outside the half-open range, and the call succeeds. *)
Lemma build_id_data_half_open_range_counterexample :
  ~ (build_id_data 1 2 2 [Dict [(PyInt 0, PyInt 1)]] = Raise InvalidArgument
     <-> 1 < 1 \/ 2 < 1 \/ 2 < 2 \/
         outside_half_open_range 2 [Dict [(PyInt 0, PyInt 1)]]).
Proof.
  intros [_ H].
  assert (build_id_data 1 2 2 [Dict [(PyInt 0, PyInt 1)]]
          = Raise InvalidArgument) as Hr; [|discriminate Hr].
  apply H. do 3 right.
  exists [(PyInt 0, PyInt 1)], (PyInt 0), (PyInt 1).
  repeat split; simpl; auto.
  right. intros [f [[= <-] Hf]]. lia.
Qed.

(** The precedence between the two exceptions, which the iff of C3 also
    leaves out: a non-dictionary entry after a rejected dictionary is never
    reached, and none is reached when the bounds fail. *)
Lemma build_id_data_first_exception_wins :
  build_id_data 1 2 2 [Dict [(PyInt 5, PyInt 0)]; NotDict]
  = Raise InvalidArgument /\
  build_id_data 1 2 2 [NotDict; Dict [(PyInt 5, PyInt 0)]]
  = Raise InvalidType /\
  build_id_data 0 2 2 [NotDict] = Raise InvalidArgument.
Proof. repeat split. Qed.

(** C1 at [T = 1], [J = 7], [F = 5]: the two excess products go to firms
    [0] and [2], so firm [1] has fewer products than firm [2]. *)
Theorem build_id_data_excess_products_7_5 :
  exists d,
    build_id_data 1 7 5 [] = Ok d /\
    column 0 0 (firm_ids d) = [0; 0; 1; 2; 2; 3; 4] /\
    count_eq 1 (column 0 0 (firm_ids d)) = 1%nat /\
    count_eq 2 (column 0 0 (firm_ids d)) = 2%nat.
Proof. eexists. repeat split. Qed.

(** C2 at the merger [{0: 1, 1: 2}] with [T = 1], [J = 3], [F = 3]: the
    items are applied one after the other to the column being changed, so
    the row whose first-column ID is [0] ends with [2], not with the value
    [1] the merger gives to the key [0]. *)
Theorem build_id_data_chained_merger :
  exists d,
    build_id_data 1 3 3 [Dict [(PyInt 0, PyInt 1); (PyInt 1, PyInt 2)]]
    = Ok d /\
    column 0 0 (firm_ids d) = [0; 1; 2] /\
    column 0 1 (firm_ids d) = [2; 2; 2].
Proof. eexists. repeat split. Qed.

(** ** What holds of the first column and of the added columns *)

Lemma map_tile {A B : Type} (f : A -> B) (l : list A) (T : Z) :
  map f (tile l T) = tile (map f l) T.
Proof.
  unfold tile. induction (Z.to_nat T) as [|n IH]; simpl; [reflexivity|].
  now rewrite map_app, IH.
Qed.

(** The first column repeats the column of one market, market after
    market. *)
Lemma baseline_firm_ids_tile (T J F : Z) :
  baseline_firm_ids T J F = tile (baseline_firm_ids 1 J F) T.
Proof.
  unfold baseline_firm_ids. rewrite !map_tile. f_equal.
  unfold tile. simpl. now rewrite app_nil_r.
Qed.

Lemma ceil_div_le (x F p : Z) :
  1 <= F -> (ceil_div x F <= p <-> x <= p * F).
Proof.
  intros HF. unfold ceil_div.
  pose proof (Z.mod_pos_bound (x + F - 1) F ltac:(lia)) as Hm.
  pose proof (Z.div_mod (x + F - 1) F ltac:(lia)) as Hd.
  split; intros H; nia.
Qed.

Lemma floor_div_eq (J F f p : Z) :
  1 <= J -> (p * F / J = f <-> f * J <= p * F < (f + 1) * J).
Proof.
  intros HJ.
  pose proof (Z.mod_pos_bound (p * F) J ltac:(lia)) as Hm.
  pose proof (Z.div_mod (p * F) J ltac:(lia)) as Hd.
  split; intros H; nia.
Qed.

(** The products of firm [f] are those at the positions from
    [ceil(f * J / F)] up to, and without, [ceil((f + 1) * J / F)]. *)
Lemma firm_of_product (J F f p : Z) :
  1 <= F -> F <= J ->
  (p * F / J =? f) =
  (ceil_div (f * J) F <=? p) && (p <? ceil_div ((f + 1) * J) F).
Proof.
  intros HF HJ.
  pose proof (floor_div_eq J F f p ltac:(lia)) as Hfl.
  pose proof (ceil_div_le (f * J) F p HF) as H1.
  pose proof (ceil_div_le ((f + 1) * J) F p HF) as H2.
  destruct (Z.eqb_spec (p * F / J) f) as [E|E];
    destruct (Z.leb_spec (ceil_div (f * J) F) p);
    destruct (Z.ltb_spec p (ceil_div ((f + 1) * J) F)); simpl;
    try reflexivity; exfalso; lia.
Qed.

Lemma count_interval (a b : Z) (n : nat) :
  0 <= a <= b ->
  Z.of_nat (length (filter (fun p => (a <=? p) && (p <? b))
                      (map Z.of_nat (seq 0 n)))) =
  Z.min b (Z.of_nat n) - Z.min a (Z.of_nat n).
Proof.
  intros Hab. induction n as [|n IH].
  - simpl. lia.
  - rewrite seq_S, map_app, filter_app, length_app, Nat2Z.inj_add, IH. simpl.
    destruct (Z.leb_spec a (Z.of_nat n)), (Z.ltb_spec (Z.of_nat n) b);
      simpl; lia.
Qed.

Lemma ceil_div_step (J F f : Z) :
  1 <= F -> F <= J -> 0 <= f < F ->
  0 <= ceil_div (f * J) F <= ceil_div ((f + 1) * J) F /\
  ceil_div ((f + 1) * J) F <= J /\
  J / F <= ceil_div ((f + 1) * J) F - ceil_div (f * J) F <= ceil_div J F.
Proof.
  intros HF HJ Hf. unfold ceil_div.
  pose proof (Z.mod_pos_bound (f * J + F - 1) F ltac:(lia)) as Hm1.
  pose proof (Z.div_mod (f * J + F - 1) F ltac:(lia)) as Hd1.
  pose proof (Z.mod_pos_bound ((f + 1) * J + F - 1) F ltac:(lia)) as Hm2.
  pose proof (Z.div_mod ((f + 1) * J + F - 1) F ltac:(lia)) as Hd2.
  pose proof (Z.mod_pos_bound J F ltac:(lia)) as Hm3.
  pose proof (Z.div_mod J F ltac:(lia)) as Hd3.
  pose proof (Z.mod_pos_bound (J + F - 1) F ltac:(lia)) as Hm4.
  pose proof (Z.div_mod (J + F - 1) F ltac:(lia)) as Hd4.
  repeat split; nia.
Qed.

Lemma filter_map_length {A B : Type} (g : B -> bool) (h : A -> B)
  (l : list A) :
  length (filter g (map h l)) = length (filter (fun a => g (h a)) l).
Proof.
  induction l as [|a l IH]; simpl; [reflexivity|].
  destruct (g (h a)); simpl; now rewrite IH.
Qed.

(** In one market, every firm has [floor(J / F)] or [ceil(J / F)] products,
    the integers from the one to the other, and so at least one. *)
Lemma baseline_product_counts (J F f : Z) :
  1 <= F -> F <= J -> 0 <= f < F ->
  1 <= J / F <= Z.of_nat (count_eq f (baseline_firm_ids 1 J F)) /\
  Z.of_nat (count_eq f (baseline_firm_ids 1 J F)) <= ceil_div J F /\
  ceil_div J F <= J / F + 1.
Proof.
  intros HF HJ Hf.
  destruct (ceil_div_step J F f HF HJ Hf) as [Ha [Hb Hc]].
  assert (Z.of_nat (count_eq f (baseline_firm_ids 1 J F)) =
          ceil_div ((f + 1) * J) F - ceil_div (f * J) F) as ->.
  { unfold baseline_firm_ids, count_eq, tile. simpl. rewrite app_nil_r.
    unfold arange. rewrite filter_map_length.
    rewrite (filter_ext _ (fun p => (ceil_div (f * J) F <=? p)
                                    && (p <? ceil_div ((f + 1) * J) F)))
      by (intros p; now apply firm_of_product).
    rewrite count_interval by lia. lia. }
  assert (1 <= J / F) by (apply Z.div_le_lower_bound; lia).
  unfold ceil_div in *.
  pose proof (Z.mod_pos_bound J F ltac:(lia)).
  pose proof (Z.div_mod J F ltac:(lia)).
  pose proof (Z.mod_pos_bound (J + F - 1) F ltac:(lia)).
  pose proof (Z.div_mod (J + F - 1) F ltac:(lia)).
  repeat split; try lia; nia.
Qed.

Lemma apply_item_to_map (ids : list Z) (item : pyobj * pyobj) :
  apply_item ids item = map (fun x => apply_item_to x item) ids.
Proof.
  destruct item as [[f1|] [f2|]]; simpl; try (now rewrite map_id).
  reflexivity.
Qed.

(** The column a merger adds is the first column, entry by entry, through
    the items of the merger in their order. *)
Lemma changed_firm_ids_map (items : list (pyobj * pyobj)) (first : list Z) :
  changed_firm_ids first (Dict items) = map (remap_id items) first.
Proof.
  simpl. revert first. induction items as [|item items IH]; intros first.
  - simpl. now rewrite map_id.
  - simpl. rewrite IH, apply_item_to_map, map_map. reflexivity.
Qed.

(** An ID that is not a key of the merger is left as it is. *)
Lemma remap_id_not_key (items : list (pyobj * pyobj)) (x : Z) :
  ~ merger_key items x -> remap_id items x = x.
Proof.
  unfold remap_id. induction items as [|[k v] items IH]; intros H;
    [reflexivity|].
  assert (~ merger_key items x) as Hrest
    by (intros [w Hw]; apply H; exists w; now right).
  simpl. destruct k as [f1|], v as [f2|]; simpl; try now apply IH.
  destruct (Z.eqb_spec x f1) as [->|_]; [|now apply IH].
  exfalso. apply H. exists (PyInt f2). now left.
Qed.

(** A key is replaced with its value when no earlier item has this key and
    no later item has the value as its key. *)
Lemma remap_id_key (before after : list (pyobj * pyobj)) (k v : Z) :
  ~ merger_key before k -> ~ merger_key after v ->
  remap_id (before ++ (PyInt k, PyInt v) :: after) k = v.
Proof.
  intros Hb Ha. unfold remap_id. rewrite fold_left_app.
  change (fold_left apply_item_to before k) with (remap_id before k).
  rewrite (remap_id_not_key before k Hb). simpl. rewrite Z.eqb_refl.
  exact (remap_id_not_key after v Ha).
Qed.

(** ** Sorted distinct keys *)

Section Unique.

Context {K : Type} (cmp : K -> K -> comparison).
Hypothesis cmp_eq : forall a b, cmp a b = Eq <-> a = b.

Lemma In_insert_unique (x y : K) (l : list K) :
  In y (insert_unique cmp x l) <-> y = x \/ In y l.
Proof.
  induction l as [|z l IH]; simpl; [intuition|].
  destruct (cmp x z) eqn:E; simpl.
  - apply cmp_eq in E. subst z. intuition.
  - intuition.
  - rewrite IH. intuition.
Qed.

Lemma In_np_unique (y : K) (l : list K) :
  In y (np_unique cmp l) <-> In y l.
Proof.
  induction l as [|x l IH]; simpl; [tauto|].
  rewrite In_insert_unique, IH. intuition.
Qed.

Lemma index_of_lt (k : K) (l : list K) :
  In k l -> (index_of cmp k l < length l)%nat.
Proof.
  induction l as [|u l IH]; simpl; [tauto|].
  intros [->|H].
  - replace (cmp k k) with Eq by (symmetry; now apply cmp_eq).
    simpl. lia.
  - destruct (is_Eq (cmp k u)); [lia|]. apply IH in H. lia.
Qed.

Lemma nth_index_of (k d : K) (l : list K) :
  In k l -> nth (index_of cmp k l) l d = k.
Proof.
  induction l as [|u l IH]; simpl; [tauto|].
  intros H. destruct (cmp k u) eqn:E; simpl.
  - apply cmp_eq in E. now subst.
  - destruct H as [->|H]; [|now apply IH].
    assert (cmp k k = Eq) by now apply cmp_eq. congruence.
  - destruct H as [->|H]; [|now apply IH].
    assert (cmp k k = Eq) by now apply cmp_eq. congruence.
Qed.

End Unique.

Lemma insert_unique_sorted (x : Z) (l : list Z) :
  StronglySorted Z.lt l -> StronglySorted Z.lt (insert_unique Z.compare x l).
Proof.
  induction l as [|y l IH]; intros Hs; simpl.
  - repeat constructor.
  - apply StronglySorted_inv in Hs. destruct Hs as [Hs Hy].
    destruct (x ?= y) eqn:E.
    + now constructor.
    + apply Z.compare_lt_iff in E. constructor; [now constructor|].
      constructor; [assumption|].
      eapply Forall_impl; [|exact Hy].
      intros a Ha. now apply Z.lt_trans with y.
    + apply Z.compare_gt_iff in E. constructor; [now apply IH|].
      apply Forall_forall. intros z Hz.
      apply (In_insert_unique Z.compare Z.compare_eq_iff) in Hz.
      destruct Hz as [->|Hz]; [assumption|].
      rewrite Forall_forall in Hy. now apply Hy.
Qed.

Lemma np_unique_sorted (l : list Z) :
  StronglySorted Z.lt (np_unique Z.compare l).
Proof.
  induction l as [|x l IH]; simpl; [constructor|].
  now apply insert_unique_sorted.
Qed.

Lemma sorted_split (l1 l2 : list Z) (t : Z) :
  StronglySorted Z.lt (l1 ++ t :: l2) ->
  NoDup l1 /\ Forall (fun u => u < t) l1 /\ Forall (fun u => t < u) l2.
Proof.
  induction l1 as [|a l1 IH]; simpl; intros Hs.
  - apply StronglySorted_inv in Hs. destruct Hs as [_ H].
    repeat split; [constructor|constructor|assumption].
  - apply StronglySorted_inv in Hs. destruct Hs as [Hs Ha].
    destruct (IH Hs) as [Hnd [H1 H2]].
    apply Forall_app in Ha. destruct Ha as [Ha1 Ha2].
    repeat split; [|constructor|]; try assumption.
    + constructor; [|assumption]. intros Hin.
      rewrite Forall_forall in Ha1. apply Ha1 in Hin. lia.
    + now inversion Ha2.
Qed.

(** ** Counting the rows of a market *)

Lemma count_eq_cons (t x : Z) (l : list Z) :
  count_eq t (x :: l) = ((if (x =? t)%Z then 1 else 0) + count_eq t l)%nat.
Proof. unfold count_eq. simpl. now destruct (x =? t). Qed.

Lemma count_eq_notin (t : Z) (l : list Z) :
  ~ In t l -> count_eq t l = 0%nat.
Proof.
  induction l as [|x l IH]; intros H; [reflexivity|].
  rewrite count_eq_cons, IH by (simpl in H; tauto).
  destruct (Z.eqb_spec x t); [|reflexivity]. subst. simpl in H. tauto.
Qed.

Lemma count_eq_pos (t : Z) (l : list Z) :
  In t l -> (0 < count_eq t l)%nat.
Proof.
  induction l as [|x l IH]; simpl; [tauto|]. rewrite count_eq_cons.
  intros [->|H]; [rewrite Z.eqb_refl; lia|]. apply IH in H. lia.
Qed.

Lemma list_sum_indicator (x : Z) (l : list Z) :
  NoDup l ->
  list_sum (map (fun u => if (x =? u)%Z then 1 else 0)%nat l) =
  (if in_dec Z.eq_dec x l then 1 else 0)%nat.
Proof.
  induction l as [|a l IH]; intros Hnd; [reflexivity|].
  inversion Hnd as [|? ? Hnotin Hnd']; subst. simpl. rewrite (IH Hnd').
  destruct (Z.eq_dec a x) as [->|Hne].
  - rewrite Z.eqb_refl. destruct (in_dec Z.eq_dec x l); [contradiction|lia].
  - destruct (Z.eqb_spec x a); [congruence|].
    destruct (in_dec Z.eq_dec x l); reflexivity.
Qed.

Lemma list_sum_map_add {A : Type} (f g : A -> nat) (l : list A) :
  list_sum (map (fun a => f a + g a)%nat l) =
  (list_sum (map f l) + list_sum (map g l))%nat.
Proof. induction l as [|a l IH]; simpl; lia. Qed.

Lemma list_sum_counts (us : list Z) (P : Z -> bool) (l : list Z) :
  NoDup us ->
  (forall x, In x l -> (In x us <-> P x = true)) ->
  list_sum (map (fun u => count_eq u l) us) = length (filter P l).
Proof.
  intros Hnd. induction l as [|x l IH]; intros HP.
  - clear. induction us as [|u us IHu]; simpl; [reflexivity|exact IHu].
  - rewrite (map_ext _ (fun u => (if (x =? u)%Z then 1 else 0)
                                 + count_eq u l)%nat)
      by (intros u; apply count_eq_cons).
    rewrite list_sum_map_add, list_sum_indicator by assumption.
    rewrite IH by (intros y Hy; apply HP; now right).
    specialize (HP x (or_introl eq_refl)). simpl.
    destruct (in_dec Z.eq_dec x us) as [Hin|Hnotin].
    + replace (P x) with true by (symmetry; now apply HP). reflexivity.
    + destruct (P x); [|reflexivity]. exfalso. apply Hnotin. now apply HP.
Qed.

Lemma length_select_eq (t : Z) (keys ids : list Z) :
  length keys = length ids ->
  length (select_eq t keys ids) = count_eq t keys.
Proof.
  unfold select_eq, count_eq. rewrite length_map.
  revert ids. induction keys as [|k keys IH]; intros [|i ids] H;
    simpl in *; try discriminate; [reflexivity|].
  destruct (k =? t); simpl; rewrite IH; auto.
Qed.

Lemma np_max_spec (l : list nat) (J : nat) :
  np_max l = Ok J -> In J l /\ Forall (fun n => n <= J)%nat l.
Proof.
  destruct l as [|x l]; simpl; [discriminate|]. intros [= <-].
  revert x. induction l as [|y l IH]; intros x; simpl.
  - split; [now left|]. repeat constructor.
  - destruct (IH (Nat.max x y)) as [Hin Hall].
    inversion Hall as [|? ? Hxy Hl]; subst. split.
    + destruct Hin as [Hin|Hin]; [|now right; right].
      rewrite <- Hin.
      destruct (Nat.max_spec x y) as [[_ E]|[_ E]]; rewrite E; auto.
    + repeat constructor; (lia || assumption).
Qed.

Lemma np_max_counts (l : list Z) (J : nat) :
  np_max (unique_counts l) = Ok J ->
  (exists t, In t l /\ count_eq t l = J) /\
  forall t, (count_eq t l <= J)%nat.
Proof.
  intros H. apply np_max_spec in H. destruct H as [Hin Hall]. split.
  - unfold unique_counts in Hin. apply in_map_iff in Hin.
    destruct Hin as [t [<- Ht]].
    apply (proj1 (In_np_unique Z.compare Z.compare_eq_iff t l)) in Ht. eauto.
  - intros t. destruct (in_dec Z.eq_dec t l) as [Ht|Ht].
    + rewrite Forall_forall in Hall. apply Hall. unfold unique_counts.
      apply in_map_iff. exists t. split; [reflexivity|].
      now apply (In_np_unique Z.compare Z.compare_eq_iff).
    + rewrite count_eq_notin by assumption. lia.
Qed.

Lemma np_max_counts_Ok (l : list Z) :
  l <> [] -> exists J, np_max (unique_counts l) = Ok J.
Proof.
  intros H. unfold unique_counts.
  destruct (np_unique Z.compare l) as [|u us] eqn:E.
  - destruct l as [|x l]; [contradiction|].
    assert (In x (np_unique Z.compare (x :: l))) as Hin
      by (apply (In_np_unique Z.compare Z.compare_eq_iff); now left).
    rewrite E in Hin. destruct Hin.
  - simpl. eauto.
Qed.

(** ** The block of one market *)

Lemma map2_repeat_l {A B C : Type} (g : A -> B -> C) (a : A) (l : list B) :
  map2 g (repeat a (length l)) l = map (g a) l.
Proof. induction l as [|b l IH]; simpl; [reflexivity|now rewrite IH]. Qed.

Lemma map2_repeat_r {A B C : Type} (g : A -> B -> C) (b : B) (l : list A) :
  map2 g l (repeat b (length l)) = map (fun a => g a b) l.
Proof. induction l as [|a l IH]; simpl; [reflexivity|now rewrite IH]. Qed.

Lemma length_map2 {A B C : Type} (g : A -> B -> C) (l1 : list A)
  (l2 : list B) :
  length l1 = length l2 -> length (map2 g l1 l2) = length l1.
Proof.
  revert l2. induction l1 as [|a l1 IH]; intros [|b l2] H; simpl in *;
    try discriminate; [reflexivity|]. now rewrite IH by lia.
Qed.

Lemma nth_map2 {A B C : Type} (g : A -> B -> C) (l1 : list A) (l2 : list B)
  (i : nat) (a : A) (b : B) (c : C) :
  (i < length l1)%nat -> (i < length l2)%nat ->
  nth i (map2 g l1 l2) c = g (nth i l1 a) (nth i l2 b).
Proof.
  revert l2 i. induction l1 as [|x l1 IH]; intros [|y l2] [|i] H1 H2;
    simpl in *; try lia; [reflexivity|]. apply IH; lia.
Qed.

Lemma nth_map_lt {A B : Type} (f : A -> B) (l : list A) (i : nat) (d : B)
  (d' : A) :
  (i < length l)%nat -> nth i (map f l) d = f (nth i l d').
Proof.
  revert i. induction l as [|a l IH]; intros [|i] H; simpl in *;
    try lia; [reflexivity|]. apply IH. lia.
Qed.

Lemma skipn_repeat_sub {A : Type} (a : A) (n J : nat) :
  skipn n (repeat a J) = repeat a (J - n).
Proof.
  revert J. induction n as [|n IH]; intros [|J]; simpl; auto.
Qed.

Lemma transpose_tile_column (ids : list Z) :
  transpose (length ids) (tile_column ids (length ids)) =
  repeat ids (length ids).
Proof.
  unfold transpose, tile_column.
  transitivity (map (fun _ : nat => ids) (seq 0 (length ids))).
  - apply map_ext_in. intros c Hc. apply in_seq in Hc.
    rewrite map_map. transitivity (map (fun f : Z => f) ids).
    + apply map_ext. intros f. apply nth_repeat_lt. lia.
    + apply map_id.
  - now rewrite map_const, length_seq.
Qed.

Lemma elementwise_tiled (k : Z -> Z -> Q) (ids : list Z) :
  elementwise k (tile_column ids (length ids))
    (transpose (length ids) (tile_column ids (length ids))) =
  map (fun f => map (k f) ids) ids.
Proof.
  rewrite transpose_tile_column. unfold elementwise, tile_column.
  pose proof (map2_repeat_r (map2 k) ids
                (map (fun f => repeat f (length ids)) ids)) as H.
  rewrite length_map in H. rewrite H, map_map.
  apply map_ext. intros f. apply map2_repeat_l.
Qed.

Lemma ownership_t_rows (k : Z -> Z -> Q) (J : nat) (ids : list Z) :
  rows (ownership_t (elementwise k) J ids) =
  map (fun f => map (fun g => Num (k f g)) ids ++ repeat NaN (J - length ids))
      ids.
Proof.
  unfold ownership_t. cbn [rows]. rewrite elementwise_tiled.
  unfold assign_leading, full_nan.
  pose proof (map2_repeat_l
                (fun r v => map Num v ++ skipn (length ids) r)
                (repeat NaN J) (map (fun f => map (k f) ids) ids)) as H.
  rewrite length_map in H. rewrite H, map_map.
  apply map_ext. intros f. now rewrite map_map, skipn_repeat_sub.
Qed.

Lemma length_ownership_t (k : Z -> Z -> Q) (J : nat) (ids : list Z) :
  length (rows (ownership_t (elementwise k) J ids)) = length ids.
Proof. now rewrite ownership_t_rows, length_map. Qed.

Lemma ownership_t_row_length (k : Z -> Z -> Q) (J : nat) (ids : list Z) :
  (length ids <= J)%nat ->
  Forall (fun r => length r = J) (rows (ownership_t (elementwise k) J ids)).
Proof.
  intros H. rewrite ownership_t_rows. apply Forall_map, Forall_forall.
  intros f _. rewrite length_app, length_map, repeat_length. lia.
Qed.

Lemma ownership_t_entry (k : Z -> Z -> Q) (J : nat) (ids : list Z)
  (j col : nat) :
  (j < length ids)%nat ->
  nth col (nth j (rows (ownership_t (elementwise k) J ids)) []) NaN =
  if (col <? length ids)%nat
  then Num (k (nth j ids 0) (nth col ids 0))
  else NaN.
Proof.
  intros Hj. rewrite ownership_t_rows.
  rewrite (nth_map_lt _ ids j [] 0) by assumption.
  destruct (Nat.ltb_spec col (length ids)) as [Hc|Hc].
  - rewrite app_nth1 by (rewrite length_map; lia).
    exact (nth_map_lt (fun g => Num (k (nth j ids 0) g)) ids col NaN 0 Hc).
  - rewrite app_nth2 by (rewrite length_map; lia).
    rewrite length_map.
    destruct (Nat.lt_ge_cases (col - length ids) (J - length ids)) as [H|H].
    + now apply nth_repeat_lt.
    + apply nth_overflow. rewrite repeat_length. lia.
Qed.

(** ** The stack of one column of firm IDs *)

Lemma nth_flat_map_block {A B : Type} (f : A -> list B) (l1 l2 : list A)
  (a : A) (j : nat) (d : B) :
  (j < length (f a))%nat ->
  nth (length (flat_map f l1) + j) (flat_map f (l1 ++ a :: l2)) d =
  nth j (f a) d.
Proof.
  intros Hj. rewrite flat_map_app. rewrite app_nth2 by lia.
  replace (length (flat_map f l1) + j - length (flat_map f l1))%nat with j
    by lia.
  simpl. now rewrite app_nth1.
Qed.

Lemma flat_map_map_compose {A B C : Type} (f : B -> list C) (g : A -> B)
  (l : list A) :
  flat_map f (map g l) = flat_map (fun a => f (g a)) l.
Proof. induction l as [|a l IH]; simpl; [reflexivity|now rewrite IH]. Qed.

Lemma ownership_stack_Ok (k : Z -> Z -> Q) (J : nat) (markets ids : list Z) :
  markets <> [] ->
  ownership_stack (elementwise k) J markets ids =
  Ok (mk_ndarray J
        (flat_map (fun t => rows (ownership_t (elementwise k) J
                                    (select_eq t markets ids)))
                  (np_unique Z.compare markets))).
Proof.
  intros H. unfold ownership_stack, vstack.
  destruct (np_unique Z.compare markets) as [|u us] eqn:E.
  - destruct markets as [|x l]; [contradiction|].
    assert (In x (np_unique Z.compare (x :: l))) as Hin
      by (apply (In_np_unique Z.compare Z.compare_eq_iff); now left).
    rewrite E in Hin. destruct Hin.
  - rewrite <- E. clear E.
    destruct (map _ (np_unique Z.compare markets)) as [|b bs] eqn:E.
    + apply map_eq_nil in E.
      destruct markets as [|x l]; [contradiction|].
      assert (In x (np_unique Z.compare (x :: l))) as Hin
        by (apply (In_np_unique Z.compare Z.compare_eq_iff); now left).
      rewrite E in Hin. destruct Hin.
    + assert (shape1 b = J) as ->.
      { assert (In b (b :: bs)) as Hb by now left.
        rewrite <- E in Hb. apply in_map_iff in Hb.
        now destruct Hb as [t [<- _]]. }
      rewrite <- E. now rewrite flat_map_map_compose.
Qed.

Lemma length_blocks (k : Z -> Z -> Q) (J : nat) (markets ids us : list Z) :
  length markets = length ids ->
  length (flat_map (fun t => rows (ownership_t (elementwise k) J
                                     (select_eq t markets ids))) us) =
  list_sum (map (fun u => count_eq u markets) us).
Proof.
  intros H. rewrite length_flat_map. f_equal. apply map_ext.
  intros t. now rewrite length_ownership_t, length_select_eq.
Qed.

Lemma blocks_before (k : Z -> Z -> Q) (J : nat) (markets ids : list Z)
  (l1 l2 : list Z) (t : Z) :
  length markets = length ids ->
  np_unique Z.compare markets = l1 ++ t :: l2 ->
  length (flat_map (fun t => rows (ownership_t (elementwise k) J
                                     (select_eq t markets ids))) l1) =
  block_start t markets.
Proof.
  intros Hlen Hsplit. rewrite length_blocks by assumption.
  pose proof (np_unique_sorted markets) as Hs. rewrite Hsplit in Hs.
  apply sorted_split in Hs. destruct Hs as [Hnd [H1 H2]].
  unfold block_start. apply list_sum_counts; [assumption|].
  intros x Hx. rewrite Z.ltb_lt. split.
  - intros Hin. rewrite Forall_forall in H1. now apply H1.
  - intros Hlt.
    apply (In_np_unique Z.compare Z.compare_eq_iff) in Hx.
    rewrite Hsplit in Hx. apply in_app_or in Hx.
    destruct Hx as [Hx|[->|Hx]]; [assumption|lia|].
    rewrite Forall_forall in H2. apply H2 in Hx. lia.
Qed.

Lemma length_stack (k : Z -> Z -> Q) (J : nat) (markets ids : list Z) :
  length markets = length ids ->
  length (flat_map (fun t => rows (ownership_t (elementwise k) J
                                     (select_eq t markets ids)))
                   (np_unique Z.compare markets)) =
  length markets.
Proof.
  intros Hlen. rewrite length_blocks by assumption.
  pose proof (np_unique_sorted markets) as Hs.
  rewrite (list_sum_counts _ (fun _ => true)).
  - clear. induction markets as [|x l IH]; simpl; [reflexivity|now rewrite IH].
  - rewrite <- (app_nil_r (np_unique Z.compare markets)) in Hs.
    clear -Hs. induction (np_unique Z.compare markets) as [|a l IH];
      [constructor|].
    simpl in Hs. apply StronglySorted_inv in Hs. destruct Hs as [Hs Ha].
    constructor; [|now apply IH].
    intros Hin. rewrite Forall_forall in Ha.
    specialize (Ha a). rewrite in_app_iff in Ha. specialize (Ha (or_introl Hin)). lia.
  - intros x Hx. split; [reflexivity|]. intros _.
    now apply (In_np_unique Z.compare Z.compare_eq_iff).
Qed.

Lemma stack_row_length (k : Z -> Z -> Q) (J : nat) (markets ids : list Z) :
  length markets = length ids ->
  (forall t, count_eq t markets <= J)%nat ->
  Forall (fun r => length r = J)
    (flat_map (fun t => rows (ownership_t (elementwise k) J
                                (select_eq t markets ids)))
              (np_unique Z.compare markets)).
Proof.
  intros Hlen HJ. apply Forall_flat_map, Forall_forall. intros t _.
  apply ownership_t_row_length. now rewrite length_select_eq.
Qed.

Lemma stack_entry (k : Z -> Z -> Q) (J : nat) (markets ids : list Z)
  (t : Z) (j col : nat) :
  length markets = length ids ->
  In t markets ->
  (j < count_eq t markets)%nat ->
  nth col
    (nth (block_start t markets + j)
       (flat_map (fun t => rows (ownership_t (elementwise k) J
                                   (select_eq t markets ids)))
                 (np_unique Z.compare markets)) []) NaN =
  if (col <? count_eq t markets)%nat
  then Num (k (nth j (select_eq t markets ids) 0)
              (nth col (select_eq t markets ids) 0))
  else NaN.
Proof.
  intros Hlen Ht Hj.
  apply (In_np_unique Z.compare Z.compare_eq_iff) in Ht.
  apply in_split in Ht. destruct Ht as [l1 [l2 Hsplit]].
  rewrite <- (blocks_before k J markets ids l1 l2 t Hlen Hsplit).
  rewrite Hsplit. rewrite nth_flat_map_block
    by (rewrite length_ownership_t, length_select_eq; assumption).
  rewrite ownership_t_entry by (rewrite length_select_eq; assumption).
  now rewrite length_select_eq.
Qed.

(** ** The ownership matrix *)

Lemma for_each_Ok {A B : Type} (f : A -> result B) (g : A -> B) (l : list A) :
  (forall a, In a l -> f a = Ok (g a)) -> for_each f l = Ok (map g l).
Proof.
  induction l as [|a l IH]; intros H; simpl; [reflexivity|].
  rewrite (H a (or_introl eq_refl)). simpl.
  rewrite IH by (intros b Hb; apply H; now right). reflexivity.
Qed.

Lemma nth_concat_chunks {A : Type} (chunks : list (list A)) (J c col : nat)
  (d : A) :
  Forall (fun r => length r = J) chunks -> (col < J)%nat ->
  nth (c * J + col) (concat chunks) d = nth col (nth c chunks []) d.
Proof.
  intros Hall Hcol. revert c.
  induction Hall as [|r chunks Hr Hall IH]; intros c; simpl.
  - destruct (c * J + col)%nat, c, col; reflexivity.
  - destruct c as [|c]; simpl.
    + apply app_nth1. lia.
    + rewrite app_nth2 by lia.
      replace (J + c * J + col - length r)%nat with (c * J + col)%nat by lia.
      apply IH.
Qed.

Lemma length_concat_chunks {A : Type} (chunks : list (list A)) (J : nat) :
  Forall (fun r => length r = J) chunks ->
  length (concat chunks) = (length chunks * J)%nat.
Proof.
  induction 1 as [|r chunks Hr Hall IH]; simpl; [reflexivity|].
  rewrite length_app. lia.
Qed.

Lemma list_sum_const {A : Type} (J : nat) (l : list A) :
  list_sum (map (fun _ => J) l) = (length l * J)%nat.
Proof. induction l as [|a l IH]; simpl; lia. Qed.

Lemma block_within (t : Z) (l : list Z) :
  (block_start t l + count_eq t l <= length l)%nat.
Proof.
  unfold block_start, count_eq.
  induction l as [|x l IH]; simpl; [lia|].
  destruct (Z.ltb_spec x t), (Z.eqb_spec x t); simpl; lia.
Qed.

Section Ownership.

Context {product_data : Type}.
Variable extract_matrix : product_data -> string -> option (ndarray Z).
Variables (pd : product_data) (mids fids : ndarray Z).
Hypothesis Hmids : extract_matrix pd "market_ids" = Some mids.
Hypothesis Hfids : extract_matrix pd "firm_ids" = Some fids.

Lemma build_ownership_unfold (karg : kappa_arg) (k : Z -> Z -> Q)
  (J : nat) :
  (shape1 mids <= 1)%nat ->
  flat mids <> [] ->
  resolve_kappa karg = Ok (elementwise k) ->
  np_max (unique_counts (flat mids)) = Ok J ->
  build_ownership extract_matrix pd karg =
  hstack (map (stack_of mids fids k J) (seq 0 (shape1 fids))).
Proof.
  intros Hshape Hne Hres HJ. unfold build_ownership.
  rewrite Hmids, Hfids.
  replace (Nat.ltb 1 (shape1 mids)) with false
    by (symmetry; apply Nat.ltb_ge; lia).
  rewrite Hres. cbn [bind]. rewrite HJ. cbn [bind].
  rewrite (for_each_Ok _ (stack_of mids fids k J)); [reflexivity|].
  intros c _. now apply ownership_stack_Ok.
Qed.

Lemma build_ownership_Ok_inv (karg : kappa_arg) (M : ndarray cell) :
  build_ownership extract_matrix pd karg = Ok M ->
  (shape1 mids <= 1)%nat /\ flat mids <> [] /\ shape1 fids <> 0%nat /\
  exists k, resolve_kappa karg = Ok (elementwise k).
Proof.
  unfold build_ownership. rewrite Hmids, Hfids.
  destruct (Nat.ltb_spec 1 (shape1 mids)) as [|Hshape]; [discriminate|].
  destruct karg as [|kappa|]; cbn [resolve_kappa bind]; [| |discriminate].
  all: destruct (np_max (unique_counts (flat mids))) as [J|e] eqn:EJ;
    cbn [bind]; [|discriminate].
  all: intros H; repeat split; try assumption; try (eexists; reflexivity).
  all: try (intros E; rewrite E in EJ; discriminate).
  all: intros E; rewrite E in H; simpl in H; discriminate.
Qed.

Lemma build_ownership_structure (karg : kappa_arg) (k : Z -> Z -> Q) :
  (shape1 mids <= 1)%nat ->
  length (flat mids) = shape0 fids ->
  flat mids <> [] ->
  shape1 fids <> 0%nat ->
  resolve_kappa karg = Ok (elementwise k) ->
  exists M J,
    build_ownership extract_matrix pd karg = Ok M /\
    np_max (unique_counts (flat mids)) = Ok J /\
    shape0 M = shape0 fids /\
    shape1 M = (shape1 fids * J)%nat /\
    rectangular M /\
    forall c t j col,
      (c < shape1 fids)%nat -> In t (flat mids) ->
      (j < count_eq t (flat mids))%nat -> (col < J)%nat ->
      entry NaN M (block_start t (flat mids) + j) (c * J + col) =
      let ids_t := select_eq t (flat mids) (column 0 c fids) in
      if (col <? count_eq t (flat mids))%nat
      then Num (k (nth j ids_t 0) (nth col ids_t 0))
      else NaN.
Proof.
  intros Hshape Hlen Hne Hcols Hres.
  destruct (np_max_counts_Ok (flat mids) Hne) as [J HJ].
  destruct (np_max_counts _ _ HJ) as [_ Hmax].
  assert (forall c, length (flat mids) = length (column 0 c fids)) as Hcol
    by (intros c; unfold column; now rewrite length_map).
  rewrite (build_ownership_unfold karg k J) by assumption.
  destruct (shape1 fids) as [|n] eqn:En; [contradiction|].
  rewrite <- En in *. clear Hcols.
  assert (exists M, hstack (map (stack_of mids fids k J) (seq 0 (shape1 fids)))
                    = Ok M /\
                    M = mk_ndarray
                          (list_sum (map shape1
                             (map (stack_of mids fids k J) (seq 0 (shape1 fids)))))
                          (map (fun i => concat
                                  (map (fun s' => nth i (rows s') [])
                                     (map (stack_of mids fids k J)
                                        (seq 0 (shape1 fids)))))
                               (seq 0 (length (flat mids)))))
    as [M [HM HMeq]].
  { eexists. split; [|reflexivity]. rewrite En at 1. cbn [seq map hstack].
    rewrite En. cbn [seq map]. do 3 f_equal.
    unfold shape0, stack_of. cbn [rows].
    now rewrite length_stack by apply Hcol. }
  assert (forall i, (i < length (flat mids))%nat ->
          Forall (fun r => length r = J)
            (map (fun s' => nth i (rows s') [])
               (map (stack_of mids fids k J) (seq 0 (shape1 fids))))) as Hchunks.
  { intros i Hi. rewrite map_map. apply Forall_map, Forall_forall.
    intros c _. unfold stack_of. cbn [rows].
    pose proof (stack_row_length k J (flat mids) (column 0 c fids)
                  (Hcol c) Hmax) as Hrows.
    rewrite Forall_forall in Hrows. apply Hrows, nth_In.
    now rewrite length_stack by apply Hcol. }
  exists M, J. split; [exact HM|]. subst M. repeat split; try assumption.
  - unfold shape0. cbn [rows]. now rewrite length_map, length_seq.
  - cbn [shape1]. rewrite map_map. unfold stack_of at 1. cbn [shape1].
    now rewrite list_sum_const, length_seq.
  - unfold rectangular. cbn [rows shape1]. apply Forall_map, Forall_forall.
    intros i Hi. apply in_seq in Hi.
    rewrite (length_concat_chunks _ J) by (apply Hchunks; lia).
    rewrite !length_map, length_seq, map_map.
    unfold stack_of at 1. cbn [shape1].
    now rewrite list_sum_const, length_seq.
  - intros c t j col Hc Ht Hj Hcl. unfold entry. cbn [rows].
    pose proof (block_within t (flat mids)) as Hin.
    rewrite (nth_map_lt _ _ _ [] 0%nat) by (rewrite length_seq; lia).
    rewrite seq_nth by lia. cbn [Nat.add].
    rewrite nth_concat_chunks with (J := J)
      by (try apply Hchunks; lia).
    rewrite map_map.
    rewrite (nth_map_lt _ _ _ [] 0%nat) by (rewrite length_seq; lia).
    rewrite seq_nth by lia. cbn [Nat.add].
    unfold stack_of. cbn [rows].
    now apply stack_entry.
Qed.

End Ownership.

Lemma length_flat_one_column {A : Type} (M : ndarray A) :
  shape1 M = 1%nat -> rectangular M -> length (flat M) = shape0 M.
Proof.
  unfold rectangular, flat, shape0. intros H1 Hr. rewrite H1 in Hr.
  rewrite (length_concat_chunks _ 1) by assumption. lia.
Qed.

Lemma one_column_of_flat {A : Type} (M : ndarray A) :
  rectangular M -> (shape1 M <= 1)%nat -> flat M <> [] -> shape1 M = 1%nat.
Proof.
  unfold rectangular, flat. destruct M as [w rs]. cbn [shape1 rows].
  intros Hr Hs Hne.
  destruct w as [|[|n]]; [|reflexivity|lia].
  exfalso. apply Hne. clear Hne Hs.
  induction Hr as [|r rs Hlen _ IH]; [reflexivity|].
  simpl. apply length_zero_iff_nil in Hlen. now rewrite Hlen, IH.
Qed.

Lemma list_sum_unique_counts (l : list Z) :
  list_sum (unique_counts l) = length l.
Proof.
  unfold unique_counts. rewrite (list_sum_counts _ (fun _ => true)).
  - induction l as [|x l IH]; simpl; [reflexivity|now rewrite IH].
  - pose proof (np_unique_sorted l) as Hs.
    induction (np_unique Z.compare l) as [|a us IH]; [constructor|].
    apply StronglySorted_inv in Hs. destruct Hs as [Hs Ha].
    constructor; [|now apply IH].
    intros Hin. rewrite Forall_forall in Ha. apply Ha in Hin. lia.
  - intros x Hx. split; [reflexivity|]. intros _.
    now apply (In_np_unique Z.compare Z.compare_eq_iff).
Qed.

Lemma resolve_kappa_weight (karg : kappa_arg) :
  karg <> KappaOther ->
  resolve_kappa karg = Ok (elementwise (weight_of karg)).
Proof. destruct karg; intros H; [reflexivity|reflexivity|congruence]. Qed.

(** C5: with no cooperation function, in the block of every market and for
    every column of firm IDs, the entry at products [j] and [k] of the market
    is [1] when their firm IDs are equal and [0] otherwise, and every
    diagonal entry of every block is [1]. *)
Theorem build_ownership_default_kappa
  {product_data : Type}
  (extract_matrix : product_data -> string -> option (ndarray Z))
  (pd : product_data) (mids fids : ndarray Z) (M : ndarray cell) :
  extract_matrix pd "market_ids"%string = Some mids ->
  extract_matrix pd "firm_ids"%string = Some fids ->
  rectangular mids ->
  shape0 mids = shape0 fids ->
  build_ownership extract_matrix pd KappaNone = Ok M ->
  identity_ownership mids fids M.
Proof.
  intros Hm Hf Hrect Hrows HM.
  destruct (build_ownership_Ok_inv extract_matrix pd mids fids Hm Hf _ _ HM)
    as [Hshape [Hne [Hcols _]]].
  pose proof (one_column_of_flat mids Hrect Hshape Hne) as H1.
  assert (length (flat mids) = shape0 fids) as Hlen
    by (rewrite <- Hrows; now apply length_flat_one_column).
  destruct (build_ownership_structure extract_matrix pd mids fids Hm Hf
              KappaNone (weight_of KappaNone) Hshape Hlen Hne Hcols eq_refl)
    as [M' [J [HM' [HJ [_ [Hs1 [_ Hentry]]]]]]].
  rewrite HM in HM'. injection HM' as <-.
  destruct (np_max_counts _ _ HJ) as [_ Hmax].
  exists J. split; [assumption|].
  intros c t Hc Ht. cbv zeta.
  assert (length (select_eq t (flat mids) (column 0 c fids))
          = count_eq t (flat mids)) as Hn.
  { apply length_select_eq. unfold column. now rewrite length_map. }
  rewrite Hn. specialize (Hmax t).
  assert (forall j k,
            (j < count_eq t (flat mids))%nat ->
            (k < count_eq t (flat mids))%nat ->
            entry NaN M (block_start t (flat mids) + j) (c * J + k) =
            Num (if nth j (select_eq t (flat mids) (column 0 c fids)) 0
                    =? nth k (select_eq t (flat mids) (column 0 c fids)) 0
                 then 1 else 0)) as Hjk.
  { intros j k Hj Hk.
    rewrite (Hentry c t j k) by (assumption || lia). cbv zeta.
    replace (k <? count_eq t (flat mids))%nat with true
      by (symmetry; apply Nat.ltb_lt; lia).
    reflexivity. }
  repeat split.
  - exact Hmax.
  - exact Hjk.
  - intros j Hj. rewrite Hjk by assumption. now rewrite Z.eqb_refl.
Qed.

Lemma build_ownership_default_kappa_witness :
  rectangular (mk_ndarray 1 [[0]; [0]; [0]; [0]; [0];
                             [1]; [1]; [1]; [1]; [1]]) /\
  identity_ownership
    (mk_ndarray 1 [[0]; [0]; [0]; [0]; [0]; [1]; [1]; [1]; [1]; [1]])
    (mk_ndarray 2 [[0; 0]; [0; 0]; [1; 1]; [2; 0]; [3; 3];
                   [0; 0]; [0; 0]; [1; 1]; [2; 0]; [3; 3]])
    (mk_ndarray 10
       [[Num 1; Num 1; Num 0; Num 0; Num 0; Num 1; Num 1; Num 0; Num 1; Num 0];
        [Num 1; Num 1; Num 0; Num 0; Num 0; Num 1; Num 1; Num 0; Num 1; Num 0];
        [Num 0; Num 0; Num 1; Num 0; Num 0; Num 0; Num 0; Num 1; Num 0; Num 0];
        [Num 0; Num 0; Num 0; Num 1; Num 0; Num 1; Num 1; Num 0; Num 1; Num 0];
        [Num 0; Num 0; Num 0; Num 0; Num 1; Num 0; Num 0; Num 0; Num 0; Num 1];
        [Num 1; Num 1; Num 0; Num 0; Num 0; Num 1; Num 1; Num 0; Num 1; Num 0];
        [Num 1; Num 1; Num 0; Num 0; Num 0; Num 1; Num 1; Num 0; Num 1; Num 0];
        [Num 0; Num 0; Num 1; Num 0; Num 0; Num 0; Num 0; Num 1; Num 0; Num 0];
        [Num 0; Num 0; Num 0; Num 1; Num 0; Num 1; Num 1; Num 0; Num 1; Num 0];
        [Num 0; Num 0; Num 0; Num 0; Num 1; Num 0; Num 0; Num 0; Num 0;
         Num 1]]).
Proof.
  assert (rectangular (mk_ndarray 1 [[0]; [0]; [0]; [0]; [0];
                                     [1]; [1]; [1]; [1]; [1]])) as Hr
    by (repeat constructor).
  split; [exact Hr|].
  exact (build_ownership_default_kappa lookup_field merger_table
           _ _ _ eq_refl eq_refl Hr eq_refl eq_refl).
Defined.

(** C6: for a table with one market ID per product, at least one product and
    at least one column of firm IDs, and a cooperation function that is [None]
    or callable, [build_ownership] returns a matrix with one row per product
    (the sum of the market sizes) and [J] columns per column of firm IDs, [J]
    being the largest market size; the blocks follow one another in the order
    of the market IDs; in the rows of a market of size [J_t], the columns
    below [J_t] of each stack are weights, never [NaN], and the columns from
    [J_t] to [J] are [NaN]. *)
Theorem build_ownership_padding
  {product_data : Type}
  (extract_matrix : product_data -> string -> option (ndarray Z))
  (pd : product_data) (mids fids : ndarray Z) (karg : kappa_arg) :
  extract_matrix pd "market_ids"%string = Some mids ->
  extract_matrix pd "firm_ids"%string = Some fids ->
  rectangular mids ->
  shape1 mids = 1%nat ->
  shape0 mids = shape0 fids ->
  (0 < shape0 fids)%nat ->
  (0 < shape1 fids)%nat ->
  karg <> KappaOther ->
  exists M,
    build_ownership extract_matrix pd karg = Ok M /\
    padded_ownership karg mids fids M.
Proof.
  intros Hm Hf Hrect H1 Hrows Hpos Hcols Hk.
  assert (length (flat mids) = shape0 fids) as Hlen
    by (rewrite <- Hrows; now apply length_flat_one_column).
  assert (flat mids <> []) as Hne
    by (intros E; rewrite E in Hlen; simpl in Hlen; lia).
  destruct (build_ownership_structure extract_matrix pd mids fids Hm Hf
              karg (weight_of karg)) as [M [J [HM [HJ [Hs0 [Hs1 [Hr He]]]]]]];
    try assumption; try lia.
  { now apply resolve_kappa_weight. }
  destruct (np_max_counts _ _ HJ) as [Hatt Hmax].
  exists M. split; [assumption|]. exists J.
  repeat split; try assumption.
  now rewrite list_sum_unique_counts, Hlen.
Qed.

(** The matrix of C6's example, market sizes [2] and [3]: five rows, three
    columns, [NaN] in the third column of both rows of the first block. *)
Lemma build_ownership_padding_witness :
  rectangular (mk_ndarray 1 [[7]; [3]; [7]; [3]; [7]]) /\
  build_ownership lookup_field ragged_table KappaNone =
  Ok (mk_ndarray 3 [[Num 1; Num 1; NaN];
                    [Num 1; Num 1; NaN];
                    [Num 1; Num 1; Num 0];
                    [Num 1; Num 1; Num 0];
                    [Num 0; Num 0; Num 1]]) /\
  exists M,
    build_ownership lookup_field ragged_table KappaNone = Ok M /\
    padded_ownership KappaNone
      (mk_ndarray 1 [[7]; [3]; [7]; [3]; [7]])
      (mk_ndarray 1 [[0]; [1]; [0]; [1]; [2]]) M.
Proof.
  assert (rectangular (mk_ndarray 1 [[7]; [3]; [7]; [3]; [7]])) as Hr
    by (repeat constructor).
  split; [exact Hr|]. split; [reflexivity|].
  apply (build_ownership_padding lookup_field ragged_table
           _ _ KappaNone eq_refl eq_refl Hr eq_refl eq_refl);
    [unfold shape0; simpl; lia|simpl; lia|discriminate].
Defined.

(** ** Exceptions of build_ownership *)

Lemma for_each_raises {A B : Type} (f : A -> result B) (l : list A)
  (e e0 : error) :
  (forall a e', f a = Raise e' -> e' = e0) ->
  for_each f l = Raise e -> e = e0.
Proof.
  intros Hf. induction l as [|a l IH]; simpl; [discriminate|].
  destruct (f a) as [b|e'] eqn:E; simpl.
  - destruct (for_each f l) as [bs|e'']; simpl; [discriminate|].
    intros [= <-]. now apply IH.
  - intros [= <-]. now apply (Hf a).
Qed.

Lemma ownership_rest_raises
  (kappa : list (list Z) -> list (list Z) -> list (list Q))
  (mids fids : ndarray Z) (e : error) :
  (J <- np_max (unique_counts (flat mids)) ;;
   stacks <- for_each
               (fun c => ownership_stack kappa J (flat mids)
                           (column 0 c fids))
               (seq 0 (shape1 fids)) ;;
   hstack stacks) = Raise e ->
  e = EmptyReduction.
Proof.
  destruct (np_max _) as [J|e'] eqn:EJ; simpl.
  - destruct (for_each _ _) as [stacks|e''] eqn:ES; simpl.
    + destruct stacks; simpl; [|discriminate]. now intros [= <-].
    + intros [= <-].
      apply (for_each_raises _ _ e'' EmptyReduction) in ES; [assumption|].
      intros c e'. unfold ownership_stack, vstack.
      destruct (map _ _); [|discriminate]. now intros [= <-].
  - intros [= <-]. unfold np_max in EJ.
    destruct (unique_counts _); [|discriminate]. now injection EJ.
Qed.

(** C7, as the code has it: [MissingField] is raised exactly when a field is
    absent; [InvalidShape] exactly when both fields are present and
    [market_ids] has more than one column; [InvalidArgument] exactly when
    both fields are present, [market_ids] has at most one column and the
    cooperation function is neither [None] nor callable; with such an
    argument no matrix is ever returned. *)
Theorem build_ownership_exceptions
  {product_data : Type}
  (extract_matrix : product_data -> string -> option (ndarray Z))
  (pd : product_data) (karg : kappa_arg) :
  (build_ownership extract_matrix pd karg = Raise MissingField <->
   extract_matrix pd "market_ids"%string = None \/
   extract_matrix pd "firm_ids"%string = None) /\
  (build_ownership extract_matrix pd karg = Raise InvalidShape <->
   exists mids fids,
     extract_matrix pd "market_ids"%string = Some mids /\
     extract_matrix pd "firm_ids"%string = Some fids /\
     (1 < shape1 mids)%nat) /\
  (build_ownership extract_matrix pd karg = Raise InvalidArgument <->
   exists mids fids,
     extract_matrix pd "market_ids"%string = Some mids /\
     extract_matrix pd "firm_ids"%string = Some fids /\
     (shape1 mids <= 1)%nat /\ karg = KappaOther) /\
  (forall M, build_ownership extract_matrix pd KappaOther <> Ok M).
Proof.
  unfold build_ownership.
  destruct (extract_matrix pd "market_ids"%string) as [mids|] eqn:Em.
  2: { split; [|split; [|split]].
       - split; auto.
       - split; [discriminate|]. intros [m [f [H _]]]. discriminate.
       - split; [discriminate|]. intros [m [f [H _]]]. discriminate.
       - discriminate. }
  destruct (extract_matrix pd "firm_ids"%string) as [fids|] eqn:Ef.
  2: { split; [|split; [|split]].
       - split; auto.
       - split; [discriminate|]. intros [m [f [_ [H _]]]]. discriminate.
       - split; [discriminate|]. intros [m [f [_ [H _]]]]. discriminate.
       - discriminate. }
  destruct (Nat.ltb_spec 1 (shape1 mids)) as [Hs|Hs].
  { split; [|split; [|split]].
    - split; [discriminate|]. intros [H|H]; discriminate.
    - split; [|reflexivity]. intros _. exists mids, fids. auto.
    - split; [discriminate|].
      intros [m [f [Hm [_ [Hle _]]]]]. injection Hm as <-. lia.
    - discriminate. }
  assert (forall kappa,
            (build_rest <- Ok kappa ;;
             J <- np_max (unique_counts (flat mids)) ;;
             stacks <- for_each
                         (fun c => ownership_stack build_rest J (flat mids)
                                     (column 0 c fids))
                         (seq 0 (shape1 fids)) ;;
             hstack stacks) <> Raise MissingField /\
            (build_rest <- Ok kappa ;;
             J <- np_max (unique_counts (flat mids)) ;;
             stacks <- for_each
                         (fun c => ownership_stack build_rest J (flat mids)
                                     (column 0 c fids))
                         (seq 0 (shape1 fids)) ;;
             hstack stacks) <> Raise InvalidShape /\
            (build_rest <- Ok kappa ;;
             J <- np_max (unique_counts (flat mids)) ;;
             stacks <- for_each
                         (fun c => ownership_stack build_rest J (flat mids)
                                     (column 0 c fids))
                         (seq 0 (shape1 fids)) ;;
             hstack stacks) <> Raise InvalidArgument) as Hrest.
  { intros kappa. cbn [bind].
    repeat split; intros H; apply ownership_rest_raises in H; discriminate. }
  destruct karg as [|kappa|]; cbn [resolve_kappa].
  - destruct (Hrest (elementwise (fun f g => if f =? g then 1%Q else 0%Q)))
      as [H1 [H2 H3]].
    split; [|split; [|split]].
    + split; [intros H; now apply H1 in H|]. intros [H|H]; discriminate.
    + split; [intros H; now apply H2 in H|].
      intros [m [f [Hm [_ Hlt]]]]. injection Hm as <-. lia.
    + split; [intros H; now apply H3 in H|].
      intros [m [f [_ [_ [_ H]]]]]. discriminate.
    + discriminate.
  - destruct (Hrest (elementwise kappa)) as [H1 [H2 H3]].
    split; [|split; [|split]].
    + split; [intros H; now apply H1 in H|]. intros [H|H]; discriminate.
    + split; [intros H; now apply H2 in H|].
      intros [m [f [Hm [_ Hlt]]]]. injection Hm as <-. lia.
    + split; [intros H; now apply H3 in H|].
      intros [m [f [_ [_ [_ H]]]]]. discriminate.
    + discriminate.
  - split; [|split; [|split]].
    + split; [discriminate|]. intros [H|H]; discriminate.
    + split; [discriminate|].
      intros [m [f [Hm [_ Hlt]]]]. injection Hm as <-. lia.
    + split; [|reflexivity]. intros _. exists mids, fids. auto.
    + discriminate.
Qed.

(** C7 as stated fails: a table whose [market_ids] field has two columns and
    which has no [firm_ids] field raises [MissingField], not
    [InvalidShape]. *)
Lemma build_ownership_shape_counterexample :
  ~ (build_ownership lookup_field no_firm_ids_table KappaNone
     = Raise InvalidShape <->
     exists mids,
       lookup_field no_firm_ids_table "market_ids"%string = Some mids /\
       (1 < shape1 mids)%nat).
Proof.
  intros [_ H].
  assert (build_ownership lookup_field no_firm_ids_table KappaNone
          = Raise InvalidShape) as Hr; [|discriminate Hr].
  apply H. eexists. split; [reflexivity|]. simpl. lia.
Qed.

(** ** The grouping engine *)

Lemma positions_filter {K : Type} (cmp : K -> K -> comparison) (u d : K)
  (ids : list K) :
  positions cmp u ids =
  filter (fun j => is_Eq (cmp (nth j ids d) u)) (seq 0 (length ids)).
Proof.
  unfold positions.
  assert (forall start,
            map fst (filter (fun p => is_Eq (cmp (snd p) u))
                       (combine (seq start (length ids)) ids)) =
            filter (fun j => is_Eq (cmp (nth (j - start) ids d) u))
                   (seq start (length ids))) as H.
  { induction ids as [|k ids IH]; intros start; simpl; [reflexivity|].
    rewrite Nat.sub_diag. destruct (is_Eq (cmp k u)); simpl.
    - f_equal. rewrite IH. apply filter_ext_in. intros j Hj.
      apply in_seq in Hj. now replace (j - start)%nat with (S (j - S start)) by lia.
    - rewrite IH. apply filter_ext_in. intros j Hj.
      apply in_seq in Hj. now replace (j - start)%nat with (S (j - S start)) by lia. }
  rewrite H. apply filter_ext. intros j. now rewrite Nat.sub_0_r.
Qed.

Lemma length_sum_rows (w : nat) (rs : list (list Q)) :
  Forall (fun r => length r = w) rs -> length (sum_rows w rs) = w.
Proof.
  unfold sum_rows. induction 1 as [|r rs Hr Hall IH]; simpl.
  - apply repeat_length.
  - unfold add_rows at 1. rewrite length_map2; congruence.
Qed.

Lemma nth_sum_rows (w c : nat) (rs : list (list Q)) :
  Forall (fun r => length r = w) rs -> (c < w)%nat ->
  nth c (sum_rows w rs) 0%Q = Qsum (map (fun r => nth c r 0%Q) rs).
Proof.
  intros Hall Hc. induction Hall as [|r rs Hr Hall IH]; simpl.
  - unfold sum_rows. simpl. now apply nth_repeat_lt.
  - pose proof (length_sum_rows w rs Hall) as Hl.
    unfold sum_rows in *. simpl. unfold add_rows at 1.
    rewrite (nth_map2 _ _ _ _ 0%Q 0%Q) by lia.
    now rewrite IH.
Qed.

Section Engine.

Context {K : Type} (cmp : K -> K -> comparison).
Hypothesis cmp_eq : forall a b, cmp a b = Eq <-> a = b.

(** The law of the grouping engine: [expand(sum(X))] gives every row the sum
    of [X] over the rows that share its key. *)
Lemma expand_sum (ids : list K) (d : K) (X : ndarray Q) :
  rectangular X ->
  shape0 X = length ids ->
  exists S,
    Groups_sum (make_Groups cmp ids) X = Ok S /\
    shape0 (Groups_expand (make_Groups cmp ids) S) = shape0 X /\
    shape1 (Groups_expand (make_Groups cmp ids) S) = shape1 X /\
    rectangular (Groups_expand (make_Groups cmp ids) S) /\
    forall r c,
      (r < shape0 X)%nat -> (c < shape1 X)%nat ->
      entry 0%Q (Groups_expand (make_Groups cmp ids) S) r c =
      sum_where (fun r' => is_Eq (cmp (nth r' ids d) (nth r ids d))) X c.
Proof.
  intros Hrect Hrows. unfold Groups_sum. cbn [group_size make_Groups].
  rewrite Hrows, Nat.eqb_refl. eexists. split; [reflexivity|].
  unfold Groups_expand. cbn [shape1 rows group_of_row members make_Groups].
  assert (forall k, In k ids ->
            nth (index_of cmp k (np_unique cmp ids))
              (map (fun idx => sum_rows (shape1 X)
                                 (map (fun i => nth i (rows X) []) idx))
                 (map (fun u => positions cmp u ids) (np_unique cmp ids)))
              [] =
            sum_rows (shape1 X)
              (map (fun i => nth i (rows X) []) (positions cmp k ids)))
    as Hrow.
  { intros k Hk. apply (In_np_unique cmp cmp_eq) in Hk.
    rewrite map_map.
    rewrite (nth_map_lt _ _ _ [] d) by now apply index_of_lt.
    now rewrite (nth_index_of cmp cmp_eq). }
  assert (forall k, Forall (fun r => length r = shape1 X)
                      (map (fun i => nth i (rows X) [])
                         (positions cmp k ids))) as Hlens.
  { intros k. apply Forall_map, Forall_forall. intros i Hi.
    rewrite (positions_filter cmp k d) in Hi. apply filter_In in Hi.
    destruct Hi as [Hi _]. apply in_seq in Hi.
    unfold rectangular in Hrect. rewrite Forall_forall in Hrect.
    apply Hrect, nth_In. unfold shape0 in Hrows. lia. }
  repeat split.
  - unfold shape0. cbn [rows]. now rewrite !length_map.
  - unfold rectangular. cbn [rows shape1].
    rewrite map_map. apply Forall_map, Forall_forall. intros k Hk.
    rewrite Hrow by assumption. now apply length_sum_rows.
  - intros r c Hr Hc. unfold entry. cbn [rows]. rewrite map_map.
    rewrite (nth_map_lt _ _ _ [] d) by lia.
    rewrite Hrow by (apply nth_In; lia).
    rewrite nth_sum_rows by (auto; lia).
    unfold sum_where. rewrite map_map, (positions_filter cmp _ d).
    now rewrite Hrows.
Qed.

End Engine.

(** ** Sums of rationals over selected rows *)

Lemma Qsum_filter_split {A : Type} (f : A -> Q) (P R : A -> bool)
  (l : list A) :
  (Qsum (map f (filter P l)) ==
   Qsum (map f (filter (fun x => P x && R x) l)) +
   Qsum (map f (filter (fun x => P x && negb (R x)) l)))%Q.
Proof.
  induction l as [|x l IH]; simpl; [ring|].
  destruct (P x), (R x); simpl; rewrite IH; ring.
Qed.

Lemma Qsum_filter_remove (f : nat -> Q) (P : nat -> bool) (r : nat)
  (l : list nat) :
  NoDup l -> In r l -> P r = true ->
  (Qsum (map f (filter P l)) ==
   f r + Qsum (map f (filter (fun x => P x && negb (x =? r)%nat) l)))%Q.
Proof.
  intros Hnd. induction Hnd as [|x l Hx Hnd IH]; intros Hin HP;
    [destruct Hin|].
  simpl. destruct Hin as [->|Hin].
  - rewrite HP, Nat.eqb_refl. simpl.
    rewrite (filter_ext_in (fun x => P x && negb (x =? r)%nat) P);
      [reflexivity|].
    intros y Hy. destruct (Nat.eqb_spec y r); [congruence|].
    now rewrite andb_true_r.
  - destruct (Nat.eqb_spec x r); [congruence|].
    rewrite andb_true_r. destruct (P x); simpl; rewrite (IH Hin HP); ring.
Qed.

Lemma is_Eq_Z_compare (a b : Z) : is_Eq (a ?= b) = (a =? b).
Proof.
  destruct (Z.compare_spec a b), (Z.eqb_spec a b); simpl; (reflexivity || lia).
Qed.

Lemma pair_compare_eq (p q : Z * Z) : pair_compare p q = Eq <-> p = q.
Proof.
  destruct p as [a b], q as [c d]. unfold pair_compare. simpl.
  destruct (Z.compare_spec a c) as [->| |].
  - rewrite Z.compare_eq_iff. split; congruence.
  - split; [discriminate|]. intros [= -> _]. lia.
  - split; [discriminate|]. intros [= -> _]. lia.
Qed.

Lemma is_Eq_pair_compare (p q : Z * Z) :
  is_Eq (pair_compare p q) = (fst p =? fst q) && (snd p =? snd q).
Proof.
  unfold pair_compare. rewrite <- !is_Eq_Z_compare.
  now destruct (fst p ?= fst q).
Qed.

Lemma sum_where_ext (P R : nat -> bool) (X : ndarray Q) (c : nat) :
  (forall r, (r < shape0 X)%nat -> P r = R r) ->
  sum_where P X c = sum_where R X c.
Proof.
  intros H. unfold sum_where. f_equal. f_equal. apply filter_ext_in.
  intros r Hr. apply in_seq in Hr. apply H. lia.
Qed.

(** ** Entries of differences and of arrays set side by side *)

Lemma subtract_rectangular (M1 M2 : ndarray Q) :
  rectangular M1 -> rectangular M2 ->
  shape0 M1 = shape0 M2 -> shape1 M1 = shape1 M2 ->
  rectangular (subtract M1 M2) /\ shape0 (subtract M1 M2) = shape0 M1.
Proof.
  unfold rectangular, shape0, subtract. cbn [rows shape1].
  destruct M1 as [w rs1], M2 as [w2 rs2]. cbn [rows shape1].
  intros H1 H2 H0 Hw. subst w2. revert rs2 H2 H0.
  induction H1 as [|r1 rs1 Hr1 H1 IH]; intros [|r2 rs2] H2 H0;
    simpl in *; try discriminate; [split; [constructor|reflexivity]|].
  inversion H2; subst. destruct (IH rs2) as [Ha Hb]; [assumption|lia|].
  split; [|now rewrite Hb]. constructor; [|assumption].
  rewrite length_map2; congruence.
Qed.

Lemma entry_subtract (M1 M2 : ndarray Q) (r c : nat) :
  rectangular M1 -> rectangular M2 ->
  shape0 M1 = shape0 M2 -> shape1 M1 = shape1 M2 ->
  (r < shape0 M1)%nat -> (c < shape1 M1)%nat ->
  entry 0%Q (subtract M1 M2) r c =
  (entry 0%Q M1 r c - entry 0%Q M2 r c)%Q.
Proof.
  unfold rectangular, shape0, subtract, entry. cbn [rows].
  intros H1 H2 H0 Hw Hr Hc.
  rewrite (nth_map2 _ _ _ _ [] []) by lia.
  rewrite Forall_forall in H1, H2.
  apply (nth_map2 _ _ _ _ 0%Q 0%Q).
  - rewrite H1 by (apply nth_In; lia). lia.
  - rewrite H2 by (apply nth_In; lia). lia.
Qed.

Lemma hstack2_rectangular {A : Type} (M1 M2 : ndarray A) :
  rectangular M1 -> rectangular M2 -> shape0 M1 = shape0 M2 ->
  rectangular (hstack2 M1 M2) /\ shape0 (hstack2 M1 M2) = shape0 M1.
Proof.
  unfold rectangular, shape0, hstack2. cbn [rows shape1].
  destruct M1 as [w1 rs1], M2 as [w2 rs2]. cbn [rows shape1].
  intros H1. revert rs2.
  induction H1 as [|r1 rs1 Hr1 H1 IH]; intros [|r2 rs2] H2 H0;
    simpl in *; try discriminate; [split; [constructor|reflexivity]|].
  inversion H2; subst. destruct (IH rs2) as [Ha Hb]; [assumption|lia|].
  split; [|now rewrite Hb]. constructor; [|assumption].
  now rewrite length_app.
Qed.

Lemma entry_hstack2_left {A : Type} (d : A) (M1 M2 : ndarray A) (r c : nat) :
  rectangular M1 -> shape0 M1 = shape0 M2 ->
  (r < shape0 M1)%nat -> (c < shape1 M1)%nat ->
  entry d (hstack2 M1 M2) r c = entry d M1 r c.
Proof.
  unfold rectangular, shape0, hstack2, entry. cbn [rows].
  intros H1 H0 Hr Hc.
  rewrite (nth_map2 _ _ _ _ [] []) by lia.
  rewrite Forall_forall in H1. apply app_nth1.
  rewrite H1 by (apply nth_In; lia). lia.
Qed.

Lemma entry_hstack2_right {A : Type} (d : A) (M1 M2 : ndarray A) (r c : nat) :
  rectangular M1 -> shape0 M1 = shape0 M2 ->
  (r < shape0 M1)%nat ->
  entry d (hstack2 M1 M2) r (shape1 M1 + c) = entry d M2 r c.
Proof.
  unfold rectangular, shape0, hstack2, entry. cbn [rows].
  intros H1 H0 Hr.
  rewrite (nth_map2 _ _ _ _ [] []) by lia.
  rewrite Forall_forall in H1. rewrite app_nth2
    by (rewrite H1 by (apply nth_In; lia); lia).
  rewrite H1 by (apply nth_In; lia). f_equal. lia.
Qed.

Lemma flat_take_column (M col : ndarray Z) (i : Z) :
  take_column M i = Ok col ->
  shape0 col = shape0 M /\ length (flat col) = shape0 M /\
  exists c, flat col = column 0 c M.
Proof.
  assert (forall c, concat (map (fun r : list Z => [nth c r 0]) (rows M))
                    = column 0 c M) as Hflat.
  { intros c. unfold column.
    induction (rows M) as [|r rs IH]; simpl; [reflexivity|now rewrite IH]. }
  unfold take_column.
  destruct ((0 <=? i) && (i <? Z.of_nat (shape1 M)));
    [|destruct ((- Z.of_nat (shape1 M) <=? i) && (i <? 0));
      [|discriminate]].
  all: intros [= <-]; unfold shape0, flat; cbn [rows];
    rewrite Hflat; unfold column; rewrite !length_map; eauto.
Qed.

(** ** The instruments *)

Lemma build_blp_instruments_returns
  {product_data : Type}
  (extract_matrix : product_data -> string -> option (ndarray Z))
  (_build_matrix : product_data -> ndarray Q)
  (pd : product_data) (firms_index : Z) (mids fids : ndarray Z) :
  extract_matrix pd "market_ids"%string = Some mids ->
  extract_matrix pd "firm_ids"%string = Some fids ->
  rectangular mids ->
  shape1 mids = 1%nat ->
  shape0 mids = shape0 fids ->
  shape0 (_build_matrix pd) = shape0 fids ->
  - Z.of_nat (shape1 fids) <= firms_index < Z.of_nat (shape1 fids) ->
  exists B,
    build_blp_instruments extract_matrix (Formulation _build_matrix) pd
      firms_index = Ok B.
Proof.
  intros Hm Hf Hrect H1 Hrows HX Hi.
  unfold build_blp_instruments. rewrite Hm, Hf.
  replace (Nat.ltb 1 (shape1 mids)) with false
    by (symmetry; apply Nat.ltb_ge; lia).
  assert (exists col, take_column fids firms_index = Ok col) as [col Ecol].
  { unfold take_column.
    destruct ((0 <=? firms_index) && (firms_index <? Z.of_nat (shape1 fids)))
      eqn:E1; [eauto|].
    replace ((- Z.of_nat (shape1 fids) <=? firms_index) && (firms_index <? 0))
      with true; [eauto|].
    symmetry. apply andb_true_iff. apply andb_false_iff in E1.
    rewrite Z.leb_le, Z.ltb_lt. rewrite Z.leb_gt, Z.ltb_ge in E1. lia. }
  rewrite Ecol. cbn [bind build_matrix].
  destruct (flat_take_column _ _ _ Ecol) as [_ [Hcol _]].
  pose proof (length_flat_one_column mids H1 Hrect) as Hmk.
  unfold Groups_sum. cbn [group_size make_Groups].
  rewrite length_combine, Hmk, Hcol, Hrows, Nat.min_id, HX, Nat.eqb_refl.
  cbn [bind]. eauto.
Qed.

(** C4: on a table with one market ID per product and a rectangular matrix
    [X] of characteristics, every result of [build_blp_instruments] is
    [[X | other | rival]]: [other] sums [X] over the other rows of the same
    market and firm, [rival] over the rows of the same market and another
    firm, and [other + rival] is the market total minus the row itself; and
    there is a result as soon as [X] has one row per product and the index
    of the firm column is in range. *)
Theorem build_blp_instruments_blocks
  {product_data : Type}
  (extract_matrix : product_data -> string -> option (ndarray Z))
  (_build_matrix : product_data -> ndarray Q)
  (pd : product_data) (firms_index : Z) (mids fids : ndarray Z)
  (B : ndarray Q) :
  extract_matrix pd "market_ids"%string = Some mids ->
  extract_matrix pd "firm_ids"%string = Some fids ->
  rectangular mids ->
  shape1 mids = 1%nat ->
  shape0 mids = shape0 fids ->
  rectangular (_build_matrix pd) ->
  (build_blp_instruments extract_matrix (Formulation _build_matrix) pd
     firms_index = Ok B ->
   exists firm_column,
     take_column fids firms_index = Ok firm_column /\
     blp_instruments (flat mids) (flat firm_column) (_build_matrix pd) B) /\
  (shape0 (_build_matrix pd) = shape0 fids ->
   - Z.of_nat (shape1 fids) <= firms_index < Z.of_nat (shape1 fids) ->
   exists B',
     build_blp_instruments extract_matrix (Formulation _build_matrix) pd
       firms_index = Ok B').
Proof.
  intros Hm Hf Hrect H1 Hrows HX.
  split; [|intros HN0 Hi; now apply (build_blp_instruments_returns
                                       extract_matrix _build_matrix pd
                                       firms_index mids fids)].
  intros HZ.
  unfold build_blp_instruments in HZ. rewrite Hm, Hf in HZ.
  replace (Nat.ltb 1 (shape1 mids)) with false in HZ
    by (symmetry; apply Nat.ltb_ge; lia).
  destruct (take_column fids firms_index) as [col|e] eqn:Ecol;
    [|discriminate]. cbn [bind build_matrix] in HZ.
  exists col. split; [reflexivity|].
  destruct (flat_take_column _ _ _ Ecol) as [_ [Hcol _]].
  pose proof (length_flat_one_column mids H1 Hrect) as Hmk.
  set (X := _build_matrix pd) in *.
  set (markets := flat mids) in *. set (firms := flat col) in *.
  assert (length firms = length markets) as Hlen by congruence.
  assert (length (combine markets firms) = length markets) as Hpair
    by (rewrite length_combine; lia).
  assert (shape0 X = length markets) as HN.
  { unfold Groups_sum at 1 in HZ. cbn [group_size make_Groups] in HZ.
    rewrite Hpair in HZ.
    destruct (Nat.eqb_spec (shape0 X) (length markets)); [assumption|].
    discriminate. }
  destruct (expand_sum pair_compare pair_compare_eq
              (combine markets firms) (0, 0) X HX)
    as [S1 [HS1 [HG0 [HG1 [HGr HG]]]]]; [congruence|].
  destruct (expand_sum Z.compare Z.compare_eq_iff markets 0 X HX HN)
    as [S2 [HS2 [HM0 [HM1 [HMr HM]]]]].
  rewrite HS1 in HZ. cbn [bind] in HZ. rewrite HS2 in HZ. cbn [bind] in HZ.
  injection HZ as <-.
  set (G := Groups_expand (make_Groups pair_compare (combine markets firms))
              S1) in *.
  set (Mk := Groups_expand (make_Groups Z.compare markets) S2) in *.
  destruct (subtract_rectangular G X HGr HX HG0 HG1) as [Hor Ho0].
  destruct (subtract_rectangular Mk X HMr HX HM0 HM1) as [Hdr Hd0].
  assert (shape1 (subtract G X) = shape1 X) as Ho1 by exact HG1.
  assert (shape1 (subtract Mk X) = shape1 X) as Hd1 by exact HM1.
  destruct (subtract_rectangular (subtract Mk X) (subtract G X))
    as [Hrr Hr0]; try assumption; try congruence.
  assert (shape1 (subtract (subtract Mk X) (subtract G X)) = shape1 X)
    as Hr1 by exact HM1.
  destruct (hstack2_rectangular X (subtract G X)) as [Hxr Hx0];
    try assumption; try congruence.
  destruct (hstack2_rectangular (hstack2 X (subtract G X))
              (subtract (subtract Mk X) (subtract G X))) as [Hzr Hz0];
    try assumption; try congruence.
  split; [congruence|]. split; [cbn [shape1 hstack2]; congruence|].
  intros r c Hr Hc. cbv zeta.
  assert (entry 0%Q G r c =
          sum_where (fun r' => (nth r' markets 0 =? nth r markets 0)
                               && (nth r' firms 0 =? nth r firms 0)) X c)
    as HGe.
  { rewrite HG by assumption. apply sum_where_ext. intros r' Hr'.
    rewrite is_Eq_pair_compare, !combine_nth by congruence.
    reflexivity. }
  assert (entry 0%Q Mk r c =
          sum_where (fun r' => nth r' markets 0 =? nth r markets 0) X c)
    as HMe.
  { rewrite HM by assumption. apply sum_where_ext. intros r' Hr'.
    apply is_Eq_Z_compare. }
  assert (entry 0%Q (subtract G X) r c
          = (entry 0%Q G r c - entry 0%Q X r c)%Q) as Hoe
    by (apply entry_subtract; (assumption || congruence || lia)).
  assert (entry 0%Q (subtract (subtract Mk X) (subtract G X)) r c
          = (entry 0%Q Mk r c - entry 0%Q X r c
             - (entry 0%Q G r c - entry 0%Q X r c))%Q) as Hre.
  { rewrite entry_subtract by (assumption || congruence || lia).
    rewrite Hoe. f_equal.
    apply entry_subtract; (assumption || congruence || lia). }
  assert (entry 0%Q (hstack2 (hstack2 X (subtract G X))
                        (subtract (subtract Mk X) (subtract G X)))
            r (shape1 X + c) = entry 0%Q (subtract G X) r c) as Eother.
  { rewrite entry_hstack2_left
      by (try assumption; try congruence; cbn [shape1 hstack2]; lia).
    apply entry_hstack2_right; (assumption || congruence). }
  assert (entry 0%Q (hstack2 (hstack2 X (subtract G X))
                        (subtract (subtract Mk X) (subtract G X)))
            r (shape1 X + shape1 X + c)
          = entry 0%Q (subtract (subtract Mk X) (subtract G X)) r c)
    as Erival.
  { replace (shape1 X + shape1 X)%nat
      with (shape1 (hstack2 X (subtract G X)))
      by (cbn [shape1 hstack2]; congruence).
    apply entry_hstack2_right; (assumption || congruence). }
  rewrite Eother, Erival, Hoe, Hre, HGe, HMe.
  assert (Qsum_split :
    (sum_where (fun r' => (nth r' markets 0 =? nth r markets 0)%Z) X c ==
     sum_where (fun r' => (nth r' markets 0 =? nth r markets 0)%Z
                          && (nth r' firms 0 =? nth r firms 0)%Z) X c +
     sum_where (fun r' => (nth r' markets 0 =? nth r markets 0)%Z
                          && negb (nth r' firms 0 =? nth r firms 0)%Z) X c)%Q)
    by apply Qsum_filter_split.
  assert (Qsum_own :
    (sum_where (fun r' => (nth r' markets 0 =? nth r markets 0)%Z
                          && (nth r' firms 0 =? nth r firms 0)%Z) X c ==
     entry 0%Q X r c +
     sum_where (fun r' => (nth r' markets 0 =? nth r markets 0)%Z
                          && (nth r' firms 0 =? nth r firms 0)%Z
                          && negb (r' =? r)%nat) X c)%Q).
  { unfold sum_where.
    apply (Qsum_filter_remove (fun r' => entry 0%Q X r' c)).
    - apply seq_NoDup.
    - apply in_seq. lia.
    - now rewrite !Z.eqb_refl. }
  repeat split.
  - rewrite entry_hstack2_left
      by (try assumption; try congruence; cbn [shape1 hstack2]; lia).
    apply entry_hstack2_left; (assumption || congruence).
  - rewrite Qsum_own. ring.
  - rewrite Qsum_split. ring.
  - ring.
Qed.

Lemma build_blp_instruments_blocks_witness :
  rectangular (mk_ndarray 1 [[7]; [3]; [7]; [3]; [7]]) /\
  rectangular ragged_characteristics /\
  exists firm_column,
    take_column (mk_ndarray 1 [[0]; [1]; [0]; [1]; [2]]) 0 = Ok firm_column /\
    blp_instruments
      (flat (mk_ndarray 1 [[7]; [3]; [7]; [3]; [7]])) (flat firm_column)
      ragged_characteristics
      (mk_ndarray 6 [[1; 2; 5; 6; 9; 10];
                     [3; 4; 7; 8; 0; 0];
                     [5; 6; 1; 2; 9; 10];
                     [7; 8; 3; 4; 0; 0];
                     [9; 10; 0; 0; 6; 8]]%Q).
Proof.
  assert (rectangular (mk_ndarray 1 [[7]; [3]; [7]; [3]; [7]])) as Hm
    by (repeat constructor).
  assert (rectangular ragged_characteristics) as HX by (repeat constructor).
  split; [exact Hm|]. split; [exact HX|].
  apply (build_blp_instruments_blocks lookup_field
           (fun _ => ragged_characteristics) ragged_table 0
           _ _ _ eq_refl eq_refl Hm eq_refl eq_refl HX).
  vm_compute. reflexivity.
Defined.

(** C9, as the code has it: on a table with both fields and at most one
    column of market IDs, an index outside [-k .. k-1], [k] being the number
    of columns of [firm_ids], ends the call with [IndexError], whatever the
    formulation: the matrix [X] is not built. *)
Theorem build_blp_instruments_index_error
  {product_data : Type}
  (extract_matrix : product_data -> string -> option (ndarray Z))
  (formulation : formulation_arg product_data)
  (pd : product_data) (firms_index : Z) (mids fids : ndarray Z) :
  extract_matrix pd "market_ids"%string = Some mids ->
  extract_matrix pd "firm_ids"%string = Some fids ->
  (shape1 mids <= 1)%nat ->
  firms_index < - Z.of_nat (shape1 fids) \/
  Z.of_nat (shape1 fids) <= firms_index ->
  build_blp_instruments extract_matrix formulation pd firms_index
  = Raise IndexError.
Proof.
  intros Hm Hf Hs Hi. unfold build_blp_instruments. rewrite Hm, Hf.
  replace (Nat.ltb 1 (shape1 mids)) with false
    by (symmetry; apply Nat.ltb_ge; lia).
  unfold take_column.
  replace ((0 <=? firms_index) && (firms_index <? Z.of_nat (shape1 fids)))
    with false by (symmetry; apply andb_false_iff; lia).
  replace ((- Z.of_nat (shape1 fids) <=? firms_index) && (firms_index <? 0))
    with false by (symmetry; apply andb_false_iff; lia).
  reflexivity.
Qed.

Lemma build_blp_instruments_index_error_witness :
  build_blp_instruments lookup_field
    (Formulation (fun _ => ragged_characteristics)) ragged_table 1
  = Raise IndexError.
Proof.
  apply (build_blp_instruments_index_error lookup_field _ ragged_table 1
           _ _ eq_refl eq_refl); simpl; lia.
Defined.

(** C9 as stated fails: a table whose [firm_ids] field has one column and
    which has no [market_ids] field raises [MissingField] for the index
    [5], not [IndexError]. *)
Lemma build_blp_instruments_index_counterexample :
  ~ (forall (pd : table) (fids : ndarray Z) (i : Z)
            (formulation : formulation_arg table),
       lookup_field pd "firm_ids"%string = Some fids ->
       i < - Z.of_nat (shape1 fids) \/ Z.of_nat (shape1 fids) <= i ->
       build_blp_instruments lookup_field formulation pd i
       = Raise IndexError).
Proof.
  intros H.
  specialize (H no_market_ids_table _ 5 NotFormulation eq_refl).
  simpl in H. discriminate H. right. lia.
Qed.

(** * Further properties of the builders *)

(** ** Columns of the panel *)

Lemma map_nth_seq {A : Type} (l : list A) (d : A) :
  map (fun i => nth i l d) (seq 0 (length l)) = l.
Proof.
  apply (nth_ext _ _ d d).
  - now rewrite length_map, length_seq.
  - intros n Hn. rewrite length_map, length_seq in Hn.
    rewrite (nth_map_lt _ _ _ d 0%nat) by (rewrite length_seq; lia).
    now rewrite seq_nth.
Qed.

Lemma length_changed_firm_ids (first : list Z) (m : merger) :
  length (changed_firm_ids first m) = length first.
Proof.
  destruct m as [items|]; [|reflexivity].
  rewrite changed_firm_ids_map. apply length_map.
Qed.

Lemma firm_ids_list_lengths (T J F : Z) (mergers : list merger) :
  Forall (fun col => length col = length (baseline_firm_ids T J F))
         (firm_ids_list T J F mergers).
Proof.
  unfold firm_ids_list. constructor; [reflexivity|].
  apply Forall_map, Forall_forall. intros m _.
  apply length_changed_firm_ids.
Qed.

Lemma nth_firm_ids_list (T J F : Z) (mergers : list merger) (m : nat) :
  (m < length mergers)%nat ->
  nth (S m) (firm_ids_list T J F mergers) [] =
  changed_firm_ids (baseline_firm_ids T J F) (nth m mergers NotDict).
Proof.
  intros Hm. unfold firm_ids_list. cbn [nth].
  exact (nth_map_lt (changed_firm_ids (baseline_firm_ids T J F)) mergers m
           [] NotDict Hm).
Qed.

Lemma entry_stack_axis1 (cols : list (list Z)) (i c : nat) :
  (i < length (hd [] cols))%nat -> (c < length cols)%nat ->
  entry 0 (stack_axis1 cols) i c = nth i (nth c cols []) 0.
Proof.
  intros Hi Hc. unfold entry, stack_axis1. cbn [rows].
  rewrite (nth_map_lt _ _ _ [] 0%nat) by (rewrite length_seq; lia).
  rewrite seq_nth by lia. cbn [Nat.add].
  exact (nth_map_lt (fun col => nth i col 0) cols c 0 [] Hc).
Qed.

Lemma column_stack_axis1 (cols : list (list Z)) (c : nat) :
  Forall (fun col => length col = length (hd [] cols)) cols ->
  (c < length cols)%nat ->
  column 0 c (stack_axis1 cols) = nth c cols [].
Proof.
  intros Hall Hc. unfold column, stack_axis1. cbn [rows].
  rewrite map_map.
  rewrite (map_ext_in _ (fun i => nth i (nth c cols []) 0)).
  - rewrite Forall_forall in Hall.
    rewrite <- (Hall (nth c cols [])) by now apply nth_In.
    apply map_nth_seq.
  - intros i _. exact (nth_map_lt (fun col => nth i col 0) cols c 0 [] Hc).
Qed.

Lemma stack_axis1_rectangular (cols : list (list Z)) :
  rectangular (stack_axis1 cols).
Proof.
  unfold rectangular, stack_axis1. cbn [rows shape1].
  apply Forall_map, Forall_forall. intros i _. apply length_map.
Qed.

(** ** Rows of one market in a balanced panel *)

Lemma select_eq_app (t : Z) (k1 k2 i1 i2 : list Z) :
  length k1 = length i1 ->
  select_eq t (k1 ++ k2) (i1 ++ i2) = select_eq t k1 i1 ++ select_eq t k2 i2.
Proof.
  unfold select_eq. revert i1.
  induction k1 as [|k k1 IH]; intros [|i i1] H; simpl in *;
    try discriminate; [reflexivity|].
  destruct (k =? t); simpl; rewrite IH by lia; reflexivity.
Qed.

Lemma select_eq_repeat (t u : Z) (ids : list Z) :
  select_eq t (repeat u (length ids)) ids = if u =? t then ids else [].
Proof.
  unfold select_eq. induction ids as [|i ids IH]; simpl.
  - now destruct (u =? t).
  - destruct (u =? t); simpl; now rewrite IH.
Qed.

Lemma select_eq_blocks (t : Z) (J n a : nat) (ids : list Z) :
  length ids = (n * J)%nat ->
  select_eq t (flat_map (fun u => repeat u J) (map Z.of_nat (seq a n))) ids =
  if (Z.of_nat a <=? t) && (t <? Z.of_nat (a + n))
  then firstn J (skipn ((Z.to_nat t - a) * J) ids)
  else [].
Proof.
  revert a ids. induction n as [|n IH]; intros a ids Hlen.
  - simpl. destruct ids; [|discriminate].
    destruct ((Z.of_nat a <=? t) && (t <? Z.of_nat (a + 0))); [|reflexivity].
    now rewrite skipn_nil, firstn_nil.
  - cbn [seq map flat_map].
    rewrite <- (firstn_skipn J ids) at 1.
    assert (length (firstn J ids) = J) as HJ
      by (rewrite length_firstn; simpl in Hlen; lia).
    rewrite select_eq_app by (rewrite repeat_length; lia).
    rewrite <- HJ at 1. rewrite select_eq_repeat.
    rewrite IH by (rewrite length_skipn; simpl in Hlen; lia).
    destruct (Z.eqb_spec (Z.of_nat a) t) as [E|E];
      destruct (Z.leb_spec (Z.of_nat (S a)) t) as [H1|H1];
      destruct (Z.ltb_spec t (Z.of_nat (S a + n))) as [H2|H2];
      destruct (Z.leb_spec (Z.of_nat a) t) as [H3|H3];
      destruct (Z.ltb_spec t (Z.of_nat (a + S n))) as [H4|H4];
      cbn [andb app]; try lia; try reflexivity.
    + replace (Z.to_nat t - a)%nat with 0%nat by lia.
      cbn [Nat.mul skipn]. apply app_nil_r.
    + rewrite skipn_skipn. do 2 f_equal. nia.
Qed.

Lemma firstn_skipn_tile {A : Type} (l : list A) (T t : nat) :
  (t < T)%nat ->
  firstn (length l) (skipn (t * length l) (concat (repeat l T))) = l.
Proof.
  revert t. induction T as [|T IH]; intros t Ht; [lia|].
  simpl. destruct t as [|t].
  - simpl. rewrite firstn_app, Nat.sub_diag, firstn_all. simpl.
    apply app_nil_r.
  - rewrite skipn_app.
    rewrite skipn_all2 by (simpl; lia).
    replace (S t * length l - length l)%nat with (t * length l)%nat
      by (simpl; lia).
    simpl. apply IH. lia.
Qed.

Lemma length_filter_blocks (P : Z -> bool) (J : nat) (us : list Z) :
  length (filter P (flat_map (fun u => repeat u J) us)) =
  (length (filter P us) * J)%nat.
Proof.
  assert (forall u n, length (filter P (repeat u n))
                      = if P u then n else 0%nat) as Hrep.
  { intros u n. induction n as [|n IHn]; simpl; [now destruct (P u)|].
    destruct (P u) eqn:E; simpl; rewrite IHn; reflexivity. }
  induction us as [|u us IH]; simpl; [reflexivity|].
  rewrite filter_app, length_app, IH, Hrep.
  destruct (P u); simpl; lia.
Qed.

Lemma block_start_balanced (T J t : Z) :
  0 <= t < T -> 0 <= J ->
  block_start t (np_repeat (arange T) J) = Z.to_nat (t * J).
Proof.
  intros Ht HJ. unfold block_start, np_repeat. rewrite length_filter_blocks.
  unfold arange.
  rewrite (filter_ext_in _ (fun p => (0 <=? p) && (p <? t))).
  - apply Nat2Z.inj. rewrite Nat2Z.inj_mul, count_interval by lia. nia.
  - intros p Hp. apply In_arange in Hp.
    replace (0 <=? p) with true by (symmetry; apply Z.leb_le; lia).
    reflexivity.
Qed.

Lemma count_eq_balanced (T J t : Z) :
  0 <= t < T -> 0 <= J ->
  count_eq t (np_repeat (arange T) J) = Z.to_nat J.
Proof.
  intros Ht HJ. unfold count_eq, np_repeat. rewrite length_filter_blocks.
  unfold arange.
  rewrite (filter_ext _ (fun p => (t <=? p) && (p <? t + 1))).
  - apply Nat2Z.inj. rewrite Nat2Z.inj_mul, count_interval by lia. nia.
  - intros p. destruct (Z.eqb_spec p t), (Z.leb_spec t p),
      (Z.ltb_spec p (t + 1)); simpl; (reflexivity || lia).
Qed.

(** ** The panel builder, continued *)

Lemma build_id_data_columns (T J F : Z) (mergers : list merger) (d : id_data) :
  build_id_data T J F mergers = Ok d ->
  market_ids d = np_repeat (arange T) J /\
  shape0 (firm_ids d) = length (baseline_firm_ids T J F) /\
  shape1 (firm_ids d) = S (length mergers) /\
  column 0 0 (firm_ids d) = baseline_firm_ids T J F /\
  forall i c,
    (i < shape0 (firm_ids d))%nat -> (c < S (length mergers))%nat ->
    entry 0 (firm_ids d) i c = nth i (nth c (firm_ids_list T J F mergers) []) 0.
Proof.
  intros H. apply build_id_data_Ok in H. destruct H as [_ [_ [_ [_ ->]]]].
  cbn [market_ids firm_ids].
  assert (length (firm_ids_list T J F mergers) = S (length mergers)) as Hlen
    by (unfold firm_ids_list; simpl; now rewrite length_map).
  assert (shape0 (stack_axis1 (firm_ids_list T J F mergers))
          = length (baseline_firm_ids T J F)) as Hrows
    by (unfold shape0, stack_axis1; cbn [rows];
        now rewrite length_map, length_seq).
  repeat split; try assumption.
  - rewrite column_stack_axis1; [reflexivity| |rewrite Hlen; lia].
    apply firm_ids_list_lengths.
  - intros i c Hi Hc. apply entry_stack_axis1; [|lia].
    rewrite Hrows in Hi. exact Hi.
Qed.

(** X1: for [J * F] below [2 ^ 53], where the floor of the floating-point
    quotient of line 71 is the floor of the exact one, in every market of the
    returned panel, taken as the rows that carry its market ID, every firm of
    the first column has [floor(J / F)] or [ceil(J / F)] products, and at
    least one. *)
Theorem build_id_data_products_per_firm
  (T J F : Z) (mergers : list merger) (d : id_data) (t f : Z) :
  J * F < 2 ^ 53 ->
  build_id_data T J F mergers = Ok d ->
  0 <= t < T -> 0 <= f < F ->
  let market := select_eq t (market_ids d) (column 0 0 (firm_ids d)) in
  length market = Z.to_nat J /\
  1 <= J / F <= Z.of_nat (count_eq f market) /\
  Z.of_nat (count_eq f market) <= ceil_div J F /\
  ceil_div J F <= J / F + 1.
Proof.
  intros _ H Ht Hf. cbv zeta.
  destruct (build_id_data_columns _ _ _ _ _ H) as [-> [_ [_ [-> _]]]].
  apply build_id_data_Ok in H. destruct H as [HT [HF [HJ _]]].
  assert (length (baseline_firm_ids 1 J F) = Z.to_nat J) as Hbase
    by (rewrite length_baseline; simpl; lia).
  assert (select_eq t (np_repeat (arange T) J) (baseline_firm_ids T J F)
          = baseline_firm_ids 1 J F) as ->.
  { unfold np_repeat, arange.
    rewrite select_eq_blocks by (rewrite length_baseline; lia).
    replace ((Z.of_nat 0 <=? t) && (t <? Z.of_nat (0 + Z.to_nat T)))
      with true by (symmetry; apply andb_true_iff;
                    rewrite Z.leb_le, Z.ltb_lt; lia).
    rewrite baseline_firm_ids_tile. unfold tile.
    rewrite Nat.sub_0_r, <- Hbase. apply firstn_skipn_tile. lia. }
  split; [exact Hbase|]. now apply baseline_product_counts.
Qed.

Lemma build_id_data_products_per_firm_witness :
  length (select_eq 1 [0;0;0;0;0;1;1;1;1;1] [0;0;1;2;3;0;0;1;2;3])
  = Z.to_nat 5 /\
  1 <= 5 / 4
    <= Z.of_nat (count_eq 0 (select_eq 1 [0;0;0;0;0;1;1;1;1;1]
                               [0;0;1;2;3;0;0;1;2;3])) /\
  Z.of_nat (count_eq 0 (select_eq 1 [0;0;0;0;0;1;1;1;1;1]
                          [0;0;1;2;3;0;0;1;2;3])) <= ceil_div 5 4 /\
  ceil_div 5 4 <= 5 / 4 + 1.
Proof.
  apply (build_id_data_products_per_firm 2 5 4 [Dict [(PyInt 2, PyInt 0)]]
           _ 1 0 eq_refl eq_refl); lia.
Defined.

(** X2: mergers only add columns.  A successful call returns the market IDs
    and the first column of firm IDs of the call without mergers, in a
    rectangular array with one more column per merger. *)
Theorem build_id_data_mergers_add_columns
  (T J F : Z) (mergers : list merger) (d : id_data) :
  build_id_data T J F mergers = Ok d ->
  exists d0,
    build_id_data T J F [] = Ok d0 /\
    market_ids d = market_ids d0 /\
    column 0 0 (firm_ids d) = column 0 0 (firm_ids d0) /\
    shape0 (firm_ids d) = shape0 (firm_ids d0) /\
    shape1 (firm_ids d0) = 1%nat /\
    shape1 (firm_ids d) = S (length mergers) /\
    rectangular (firm_ids d).
Proof.
  intros H.
  destruct (build_id_data_columns _ _ _ _ _ H) as [Hm [H0 [H1 [Hc _]]]].
  pose proof (build_id_data_Ok _ _ _ _ _ H) as [HT [HF [HJ [_ Hd]]]].
  assert (build_id_data T J F [] =
          Ok (mk_id_data (np_repeat (arange T) J)
                (stack_axis1 (firm_ids_list T J F [])))) as H'
    by (now rewrite build_id_data_valid).
  destruct (build_id_data_columns _ _ _ _ _ H') as [Hm' [H0' [H1' [Hc' _]]]].
  eexists. split; [exact H'|].
  repeat split; try congruence.
  rewrite Hd. apply stack_axis1_rectangular.
Qed.

Lemma build_id_data_mergers_add_columns_witness :
  exists d0,
    build_id_data 2 5 4 [] = Ok d0 /\
    [0;0;0;0;0;1;1;1;1;1] = market_ids d0 /\
    [0;0;1;2;3;0;0;1;2;3] = column 0 0 (firm_ids d0) /\
    10%nat = shape0 (firm_ids d0) /\
    shape1 (firm_ids d0) = 1%nat /\
    2%nat = 2%nat /\
    rectangular (mk_ndarray 2 [[0;0];[0;0];[1;1];[2;0];[3;3];
                               [0;0];[0;0];[1;1];[2;0];[3;3]]).
Proof.
  exact (build_id_data_mergers_add_columns 2 5 4 [Dict [(PyInt 2, PyInt 0)]]
           _ eq_refl).
Defined.

(** X3: the column a merger adds is the first column sent, entry by entry,
    through the items of the merger in their order; a row whose first-column
    ID is not a key of the merger keeps its ID. *)
Theorem build_id_data_merger_column
  (T J F : Z) (mergers : list merger) (d : id_data)
  (m i : nat) (items : list (pyobj * pyobj)) :
  build_id_data T J F mergers = Ok d ->
  (m < length mergers)%nat ->
  nth m mergers NotDict = Dict items ->
  (i < shape0 (firm_ids d))%nat ->
  entry 0 (firm_ids d) i (S m) = remap_id items (entry 0 (firm_ids d) i 0) /\
  (~ merger_key items (entry 0 (firm_ids d) i 0) ->
   entry 0 (firm_ids d) i (S m) = entry 0 (firm_ids d) i 0).
Proof.
  intros H Hm Hitems Hi.
  destruct (build_id_data_columns _ _ _ _ _ H) as [_ [H0 [_ [_ He]]]].
  assert (entry 0 (firm_ids d) i (S m)
          = remap_id items (entry 0 (firm_ids d) i 0)) as Hremap.
  { rewrite !He by lia. rewrite nth_firm_ids_list by assumption.
    rewrite Hitems, changed_firm_ids_map. cbn [firm_ids_list nth].
    apply nth_map_lt. congruence. }
  split; [exact Hremap|].
  intros Hkey. rewrite Hremap. now apply remap_id_not_key.
Qed.

Lemma build_id_data_merger_column_witness :
  entry 0 (mk_ndarray 2 [[0;0];[0;0];[1;1];[2;0];[3;3];
                         [0;0];[0;0];[1;1];[2;0];[3;3]]) 4 1
  = remap_id [(PyInt 2, PyInt 0)]
      (entry 0 (mk_ndarray 2 [[0;0];[0;0];[1;1];[2;0];[3;3];
                              [0;0];[0;0];[1;1];[2;0];[3;3]]) 4 0) /\
  (~ merger_key [(PyInt 2, PyInt 0)]
       (entry 0 (mk_ndarray 2 [[0;0];[0;0];[1;1];[2;0];[3;3];
                               [0;0];[0;0];[1;1];[2;0];[3;3]]) 4 0) ->
   entry 0 (mk_ndarray 2 [[0;0];[0;0];[1;1];[2;0];[3;3];
                          [0;0];[0;0];[1;1];[2;0];[3;3]]) 4 1
   = entry 0 (mk_ndarray 2 [[0;0];[0;0];[1;1];[2;0];[3;3];
                            [0;0];[0;0];[1;1];[2;0];[3;3]]) 4 0).
Proof.
  apply (build_id_data_merger_column 2 5 4 [Dict [(PyInt 2, PyInt 0)]]
           _ 0 4 [(PyInt 2, PyInt 0)] eq_refl);
    [simpl; lia|reflexivity|unfold shape0; simpl; lia].
Defined.

(** X4: a row whose first-column ID is a key of the merger gets the value of
    that key in the added column, provided no earlier item has the same key
    and no later item has the value as its key. *)
Theorem build_id_data_merger_key
  (T J F : Z) (mergers : list merger) (d : id_data)
  (m i : nat) (before after : list (pyobj * pyobj)) (k v : Z) :
  build_id_data T J F mergers = Ok d ->
  (m < length mergers)%nat ->
  nth m mergers NotDict = Dict (before ++ (PyInt k, PyInt v) :: after) ->
  ~ merger_key before k ->
  ~ merger_key after v ->
  (i < shape0 (firm_ids d))%nat ->
  entry 0 (firm_ids d) i 0 = k ->
  entry 0 (firm_ids d) i (S m) = v.
Proof.
  intros H Hm Hitems Hb Ha Hi Hk.
  destruct (build_id_data_columns _ _ _ _ _ H) as [_ [H0 [_ [_ He]]]].
  rewrite He in Hk |- * by lia. rewrite nth_firm_ids_list by assumption.
  rewrite Hitems, changed_firm_ids_map.
  cbn [firm_ids_list nth] in Hk.
  rewrite (nth_map_lt _ _ _ 0 0) by congruence.
  rewrite Hk. now apply remap_id_key.
Qed.

Lemma build_id_data_merger_key_witness :
  entry 0 (mk_ndarray 2 [[0;0];[0;0];[1;1];[2;0];[3;3];
                         [0;0];[0;0];[1;1];[2;0];[3;3]]) 3 1 = 0.
Proof.
  apply (build_id_data_merger_key 2 5 4 [Dict [(PyInt 2, PyInt 0)]]
           _ 0 3 [] [] 2 0 eq_refl);
    [simpl; lia|reflexivity| | |unfold shape0; simpl; lia|reflexivity];
    intros [w []].
Defined.

(** ** The ownership matrix, continued *)

Lemma build_ownership_rest (product_data : Type)
  (extract_matrix : product_data -> string -> option (ndarray Z))
  (pd : product_data) (mids fids : ndarray Z) (karg : kappa_arg) :
  extract_matrix pd "market_ids"%string = Some mids ->
  extract_matrix pd "firm_ids"%string = Some fids ->
  (shape1 mids <= 1)%nat ->
  karg <> KappaOther ->
  build_ownership extract_matrix pd karg =
  (J <- np_max (unique_counts (flat mids)) ;;
   stacks <- for_each
               (fun c => ownership_stack (elementwise (weight_of karg)) J
                           (flat mids) (column 0 c fids))
               (seq 0 (shape1 fids)) ;;
   hstack stacks).
Proof.
  intros Hm Hf Hs Hk. unfold build_ownership. rewrite Hm, Hf.
  replace (Nat.ltb 1 (shape1 mids)) with false
    by (symmetry; apply Nat.ltb_ge; lia).
  now rewrite (resolve_kappa_weight karg Hk).
Qed.

(** X5: on a table whose two fields have the same number of rows, with at
    most one column of market IDs and a cooperation function that is [None]
    or callable, [build_ownership] returns a matrix exactly when there is a
    market ID and [firm_ids] has a column; without a market ID, or without a
    column of firm IDs, numpy's reduction or concatenation of nothing ends
    the call. *)
Theorem build_ownership_returns_iff
  {product_data : Type}
  (extract_matrix : product_data -> string -> option (ndarray Z))
  (pd : product_data) (mids fids : ndarray Z) (karg : kappa_arg) :
  extract_matrix pd "market_ids"%string = Some mids ->
  extract_matrix pd "firm_ids"%string = Some fids ->
  rectangular mids ->
  shape0 mids = shape0 fids ->
  (shape1 mids <= 1)%nat ->
  karg <> KappaOther ->
  ((exists M, build_ownership extract_matrix pd karg = Ok M) <->
   flat mids <> [] /\ shape1 fids <> 0%nat) /\
  (build_ownership extract_matrix pd karg = Raise EmptyReduction <->
   flat mids = [] \/ shape1 fids = 0%nat).
Proof.
  intros Hm Hf _ _ Hs Hk.
  assert ((exists M, build_ownership extract_matrix pd karg = Ok M) <->
          flat mids <> [] /\ shape1 fids <> 0%nat) as Hok.
  { split.
    - intros [M HM].
      destruct (build_ownership_Ok_inv extract_matrix pd mids fids Hm Hf
                  _ _ HM) as [_ [Hne [Hc _]]]. now split.
    - intros [Hne Hc].
      destruct (np_max_counts_Ok (flat mids) Hne) as [J HJ].
      rewrite (build_ownership_unfold extract_matrix pd mids fids Hm Hf
                 karg (weight_of karg) J Hs Hne
                 (resolve_kappa_weight karg Hk) HJ).
      destruct (shape1 fids) as [|n]; [contradiction|].
      cbn [seq map hstack]. eauto. }
  split; [exact Hok|].
  destruct (build_ownership extract_matrix pd karg) as [M|e] eqn:E.
  - split; [discriminate|].
    assert (flat mids <> [] /\ shape1 fids <> 0%nat) as [Hne Hc]
      by (apply Hok; eauto).
    intros [H|H]; contradiction.
  - pose proof E as E'.
    rewrite (build_ownership_rest _ extract_matrix pd mids fids karg
               Hm Hf Hs Hk) in E'.
    apply ownership_rest_raises in E'. subst e.
    split; [intros _|reflexivity].
    destruct (flat mids) as [|x l] eqn:Efl; [now left|].
    destruct (shape1 fids) as [|n] eqn:Ec; [now right|].
    assert (exists M : ndarray cell, @Raise (ndarray cell) EmptyReduction = Ok M)
      as [M HM] by (apply Hok; split; discriminate).
    discriminate.
Qed.

Lemma build_ownership_returns_iff_witness :
  rectangular ragged_market_ids /\
  (((exists M, build_ownership lookup_field ragged_table KappaNone = Ok M) <->
    flat ragged_market_ids <> [] /\ shape1 ragged_firm_ids <> 0%nat) /\
   (build_ownership lookup_field ragged_table KappaNone
    = Raise EmptyReduction <->
    flat ragged_market_ids = [] \/ shape1 ragged_firm_ids = 0%nat)).
Proof.
  assert (rectangular ragged_market_ids) as Hr by (repeat constructor).
  split; [exact Hr|].
  apply (build_ownership_returns_iff lookup_field ragged_table
           _ _ KappaNone eq_refl eq_refl Hr eq_refl);
    [simpl; lia|discriminate].
Defined.

(** X6: a symmetric cooperation function gives symmetric blocks: in the
    block of every market and the stack of every column of firm IDs, the
    entries at products [(j, k)] and [(k, j)] are equal. *)
Theorem build_ownership_symmetric
  {product_data : Type}
  (extract_matrix : product_data -> string -> option (ndarray Z))
  (pd : product_data) (mids fids : ndarray Z) (karg : kappa_arg)
  (M : ndarray cell) :
  extract_matrix pd "market_ids"%string = Some mids ->
  extract_matrix pd "firm_ids"%string = Some fids ->
  rectangular mids ->
  shape0 mids = shape0 fids ->
  (forall f g, weight_of karg f g = weight_of karg g f) ->
  build_ownership extract_matrix pd karg = Ok M ->
  exists J,
    shape1 M = (shape1 fids * J)%nat /\
    forall c t j k,
      (c < shape1 fids)%nat -> In t (flat mids) ->
      (j < count_eq t (flat mids))%nat -> (k < count_eq t (flat mids))%nat ->
      entry NaN M (block_start t (flat mids) + j) (c * J + k) =
      entry NaN M (block_start t (flat mids) + k) (c * J + j).
Proof.
  intros Hm Hf Hrect Hrows Hsym HM.
  destruct (build_ownership_Ok_inv extract_matrix pd mids fids Hm Hf _ _ HM)
    as [Hshape [Hne [Hcols [k0 Hk0]]]].
  assert (karg <> KappaOther) as Hk by (intros ->; discriminate).
  pose proof (one_column_of_flat mids Hrect Hshape Hne) as H1.
  assert (length (flat mids) = shape0 fids) as Hlen
    by (rewrite <- Hrows; now apply length_flat_one_column).
  destruct (build_ownership_structure extract_matrix pd mids fids Hm Hf
              karg (weight_of karg) Hshape Hlen Hne Hcols
              (resolve_kappa_weight karg Hk))
    as [M' [J [HM' [HJ [_ [Hs1 [_ Hentry]]]]]]].
  rewrite HM in HM'. injection HM' as <-.
  destruct (np_max_counts _ _ HJ) as [_ Hmax].
  exists J. split; [assumption|].
  intros c t j k Hc Ht Hj Hk'. specialize (Hmax t).
  rewrite (Hentry c t j k), (Hentry c t k j) by (assumption || lia).
  cbv zeta.
  replace (k <? count_eq t (flat mids))%nat with true
    by (symmetry; apply Nat.ltb_lt; lia).
  replace (j <? count_eq t (flat mids))%nat with true
    by (symmetry; apply Nat.ltb_lt; lia).
  now rewrite Hsym.
Qed.

Lemma build_ownership_symmetric_witness :
  rectangular ragged_market_ids /\
  exists J,
    shape1 ragged_ownership = (shape1 ragged_firm_ids * J)%nat /\
    forall c t j k,
      (c < shape1 ragged_firm_ids)%nat ->
      In t (flat ragged_market_ids) ->
      (j < count_eq t (flat ragged_market_ids))%nat ->
      (k < count_eq t (flat ragged_market_ids))%nat ->
      entry NaN ragged_ownership
        (block_start t (flat ragged_market_ids) + j) (c * J + k) =
      entry NaN ragged_ownership
        (block_start t (flat ragged_market_ids) + k) (c * J + j).
Proof.
  assert (rectangular ragged_market_ids) as Hr by (repeat constructor).
  split; [exact Hr|].
  apply (build_ownership_symmetric lookup_field ragged_table
           _ _ KappaNone _ eq_refl eq_refl Hr eq_refl).
  - intros f g. simpl. now rewrite Z.eqb_sym.
  - reflexivity.
Defined.

(** ** Ownership of the balanced panel *)

Lemma flat_singletons {A : Type} (l : list A) :
  flat (mk_ndarray 1 (map (fun t => [t]) l)) = l.
Proof.
  unfold flat. cbn [rows].
  induction l as [|a l IH]; simpl; [reflexivity|now rewrite IH].
Qed.

Lemma nth_column (M : ndarray Z) (i c : nat) :
  (i < shape0 M)%nat -> nth i (column 0 c M) 0 = entry 0 M i c.
Proof.
  intros Hi. unfold column, entry.
  exact (nth_map_lt (fun r => nth c r 0) (rows M) i 0 [] Hi).
Qed.

Lemma In_np_repeat_arange (T J t : Z) :
  In t (np_repeat (arange T) J) -> 0 <= t < T.
Proof.
  unfold np_repeat. rewrite in_flat_map. intros [u [Hu Hin]].
  apply repeat_spec in Hin. subst t. now apply In_arange.
Qed.

(** X7: [build_ownership] applied to the panel of [build_id_data], as in the
    example of its docstring, returns a matrix without padding: [T * J]
    rows, [J] columns per column of firm IDs, and the weight of the firms of
    products [j] and [k] of market [t] at row [t * J + j] and column
    [c * J + k], for every column [c] of firm IDs. *)
Theorem build_ownership_of_id_data
  {product_data : Type}
  (extract_matrix : product_data -> string -> option (ndarray Z))
  (pd : product_data) (T J F : Z) (mergers : list merger) (d : id_data)
  (karg : kappa_arg) :
  build_id_data T J F mergers = Ok d ->
  extract_matrix pd "market_ids"%string
  = Some (mk_ndarray 1 (map (fun t => [t]) (market_ids d))) ->
  extract_matrix pd "firm_ids"%string = Some (firm_ids d) ->
  karg <> KappaOther ->
  exists M,
    build_ownership extract_matrix pd karg = Ok M /\
    shape0 M = Z.to_nat (T * J) /\
    shape1 M = (S (length mergers) * Z.to_nat J)%nat /\
    forall t j k c,
      (t < Z.to_nat T)%nat -> (j < Z.to_nat J)%nat -> (k < Z.to_nat J)%nat ->
      (c < S (length mergers))%nat ->
      entry NaN M (t * Z.to_nat J + j) (c * Z.to_nat J + k) =
      Num (weight_of karg
             (entry 0 (firm_ids d) (t * Z.to_nat J + j) c)
             (entry 0 (firm_ids d) (t * Z.to_nat J + k) c)).
Proof.
  intros Hd Hm Hf Hk.
  destruct (build_id_data_columns _ _ _ _ _ Hd) as [Hmk [H0 [H1 _]]].
  pose proof (build_id_data_Ok _ _ _ _ _ Hd) as [HT [HF [HJ _]]].
  rewrite length_baseline in H0.
  set (mids := mk_ndarray 1 (map (fun t => [t]) (market_ids d))) in *.
  assert (flat mids = np_repeat (arange T) J) as Hflat
    by (unfold mids; now rewrite flat_singletons).
  assert (length (flat mids) = shape0 (firm_ids d)) as Hlen
    by (rewrite Hflat, length_market_ids; congruence).
  assert (flat mids <> []) as Hne
    by (intros E; rewrite E in Hlen; simpl in Hlen; nia).
  destruct (build_ownership_structure extract_matrix pd mids (firm_ids d)
              Hm Hf karg (weight_of karg))
    as [M [J' [HM [HJ' [Hs0 [Hs1 [_ He]]]]]]];
    try assumption; try (simpl; lia); try (now apply resolve_kappa_weight).
  assert (J' = Z.to_nat J) as ->.
  { destruct (np_max_counts _ _ HJ') as [[t0 [Hin <-]] _].
    rewrite Hflat in *. apply In_np_repeat_arange in Hin.
    apply count_eq_balanced; lia. }
  exists M. split; [assumption|].
  split; [rewrite Hs0, H0, Z2Nat.inj_mul by lia; reflexivity|].
  split; [congruence|].
  intros t j k c Ht Hj Hk' Hc.
  assert (count_eq (Z.of_nat t) (flat mids) = Z.to_nat J) as Hcount
    by (rewrite Hflat; apply count_eq_balanced; lia).
  assert (In (Z.of_nat t) (flat mids)) as Hin.
  { destruct (in_dec Z.eq_dec (Z.of_nat t) (flat mids)) as [|Hn];
      [assumption|].
    apply count_eq_notin in Hn. lia. }
  assert (block_start (Z.of_nat t) (flat mids) = (t * Z.to_nat J)%nat)
    as Hstart.
  { rewrite Hflat, block_start_balanced by lia.
    rewrite Z2Nat.inj_mul by lia. now rewrite Nat2Z.id. }
  assert (forall i, (i < Z.to_nat J)%nat ->
            nth i (select_eq (Z.of_nat t) (flat mids)
                     (column 0 c (firm_ids d))) 0
            = entry 0 (firm_ids d) (t * Z.to_nat J + i) c) as Hnth.
  { intros i Hi. rewrite Hflat. unfold np_repeat, arange.
    rewrite select_eq_blocks
      by (unfold column; rewrite length_map; exact H0).
    replace ((Z.of_nat 0 <=? Z.of_nat t)
             && (Z.of_nat t <? Z.of_nat (0 + Z.to_nat T)))
      with true by (symmetry; apply andb_true_iff;
                    rewrite Z.leb_le, Z.ltb_lt; lia).
    rewrite nth_firstn.
    replace (i <? Z.to_nat J)%nat with true
      by (symmetry; apply Nat.ltb_lt; lia).
    rewrite nth_skipn, Nat2Z.id, Nat.sub_0_r.
    apply nth_column. rewrite H0. nia. }
  rewrite H1 in He.
  specialize (He c (Z.of_nat t) j k Hc Hin).
  rewrite Hcount, Hstart in He. cbv zeta in He.
  rewrite He by lia.
  replace (k <? Z.to_nat J)%nat with true
    by (symmetry; apply Nat.ltb_lt; lia).
  now rewrite !Hnth.
Qed.

Lemma build_ownership_of_id_data_witness :
  exists M,
    build_ownership lookup_field merger_table KappaNone = Ok M /\
    shape0 M = Z.to_nat (2 * 5) /\
    shape1 M = (S (length [Dict [(PyInt 2, PyInt 0)]]) * Z.to_nat 5)%nat /\
    forall t j k c,
      (t < Z.to_nat 2)%nat -> (j < Z.to_nat 5)%nat -> (k < Z.to_nat 5)%nat ->
      (c < S (length [Dict [(PyInt 2, PyInt 0)]]))%nat ->
      entry NaN M (t * Z.to_nat 5 + j) (c * Z.to_nat 5 + k) =
      Num (weight_of KappaNone
             (entry 0 (stack_axis1
                         (firm_ids_list 2 5 4 [Dict [(PyInt 2, PyInt 0)]]))
                (t * Z.to_nat 5 + j) c)
             (entry 0 (stack_axis1
                         (firm_ids_list 2 5 4 [Dict [(PyInt 2, PyInt 0)]]))
                (t * Z.to_nat 5 + k) c)).
Proof.
  apply (build_ownership_of_id_data lookup_field merger_table 2 5 4
           [Dict [(PyInt 2, PyInt 0)]] _ KappaNone eq_refl eq_refl eq_refl).
  discriminate.
Defined.

(** ** The instruments, continued *)

Lemma flat_take_column_index (M col : ndarray Z) (i : Z) :
  take_column M i = Ok col ->
  exists c,
    (c < shape1 M)%nat /\
    Z.of_nat c = (if 0 <=? i then i else Z.of_nat (shape1 M) + i) /\
    flat col = column 0 c M.
Proof.
  assert (forall c, concat (map (fun r : list Z => [nth c r 0]) (rows M))
                    = column 0 c M) as Hflat.
  { intros c. unfold column.
    induction (rows M) as [|r rs IH]; simpl; [reflexivity|now rewrite IH]. }
  unfold take_column.
  destruct ((0 <=? i) && (i <? Z.of_nat (shape1 M))) eqn:E1.
  - intros [= <-]. apply andb_true_iff in E1.
    rewrite Z.leb_le, Z.ltb_lt in E1.
    exists (Z.to_nat i). unfold flat. cbn [rows].
    replace (0 <=? i) with true by (symmetry; apply Z.leb_le; lia).
    repeat split; [lia|lia|apply Hflat].
  - destruct ((- Z.of_nat (shape1 M) <=? i) && (i <? 0)) eqn:E2;
      [|discriminate].
    intros [= <-]. apply andb_true_iff in E2.
    rewrite Z.leb_le, Z.ltb_lt in E2.
    exists (Z.to_nat (Z.of_nat (shape1 M) + i)). unfold flat. cbn [rows].
    replace (0 <=? i) with false by (symmetry; apply Z.leb_gt; lia).
    repeat split; [lia|lia|apply Hflat].
Qed.

Lemma sum_where_none (P : nat -> bool) (X : ndarray Q) (c : nat) :
  (forall r, (r < shape0 X)%nat -> P r = false) ->
  sum_where P X c = 0%Q.
Proof.
  intros H. rewrite (sum_where_ext P (fun _ => false)) by assumption.
  unfold sum_where.
  replace (filter (fun _ : nat => false) (seq 0 (shape0 X))) with (@nil nat);
    [reflexivity|].
  induction (seq 0 (shape0 X)) as [|a l IH]; [reflexivity|exact IH].
Qed.

Lemma build_blp_instruments_result
  {product_data : Type}
  (extract_matrix : product_data -> string -> option (ndarray Z))
  (_build_matrix : product_data -> ndarray Q)
  (pd : product_data) (firms_index : Z) (mids fids : ndarray Z)
  (B : ndarray Q) :
  extract_matrix pd "market_ids"%string = Some mids ->
  extract_matrix pd "firm_ids"%string = Some fids ->
  rectangular mids ->
  shape1 mids = 1%nat ->
  shape0 mids = shape0 fids ->
  rectangular (_build_matrix pd) ->
  build_blp_instruments extract_matrix (Formulation _build_matrix) pd
    firms_index = Ok B ->
  exists firm_column,
    take_column fids firms_index = Ok firm_column /\
    rectangular B /\
    blp_instruments (flat mids) (flat firm_column) (_build_matrix pd) B.
Proof.
  intros Hm Hf Hrect H1 Hrows HX.
  intros HZ.
  unfold build_blp_instruments in HZ. rewrite Hm, Hf in HZ.
  replace (Nat.ltb 1 (shape1 mids)) with false in HZ
    by (symmetry; apply Nat.ltb_ge; lia).
  destruct (take_column fids firms_index) as [col|e] eqn:Ecol;
    [|discriminate]. cbn [bind build_matrix] in HZ.
  exists col. split; [reflexivity|].
  destruct (flat_take_column _ _ _ Ecol) as [_ [Hcol _]].
  pose proof (length_flat_one_column mids H1 Hrect) as Hmk.
  set (X := _build_matrix pd) in *.
  set (markets := flat mids) in *. set (firms := flat col) in *.
  assert (length firms = length markets) as Hlen by congruence.
  assert (length (combine markets firms) = length markets) as Hpair
    by (rewrite length_combine; lia).
  assert (shape0 X = length markets) as HN.
  { unfold Groups_sum at 1 in HZ. cbn [group_size make_Groups] in HZ.
    rewrite Hpair in HZ.
    destruct (Nat.eqb_spec (shape0 X) (length markets)); [assumption|].
    discriminate. }
  destruct (expand_sum pair_compare pair_compare_eq
              (combine markets firms) (0, 0) X HX)
    as [S1 [HS1 [HG0 [HG1 [HGr HG]]]]]; [congruence|].
  destruct (expand_sum Z.compare Z.compare_eq_iff markets 0 X HX HN)
    as [S2 [HS2 [HM0 [HM1 [HMr HM]]]]].
  rewrite HS1 in HZ. cbn [bind] in HZ. rewrite HS2 in HZ. cbn [bind] in HZ.
  injection HZ as <-.
  set (G := Groups_expand (make_Groups pair_compare (combine markets firms))
              S1) in *.
  set (Mk := Groups_expand (make_Groups Z.compare markets) S2) in *.
  destruct (subtract_rectangular G X HGr HX HG0 HG1) as [Hor Ho0].
  destruct (subtract_rectangular Mk X HMr HX HM0 HM1) as [Hdr Hd0].
  assert (shape1 (subtract G X) = shape1 X) as Ho1 by exact HG1.
  assert (shape1 (subtract Mk X) = shape1 X) as Hd1 by exact HM1.
  destruct (subtract_rectangular (subtract Mk X) (subtract G X))
    as [Hrr Hr0]; try assumption; try congruence.
  assert (shape1 (subtract (subtract Mk X) (subtract G X)) = shape1 X)
    as Hr1 by exact HM1.
  destruct (hstack2_rectangular X (subtract G X)) as [Hxr Hx0];
    try assumption; try congruence.
  destruct (hstack2_rectangular (hstack2 X (subtract G X))
              (subtract (subtract Mk X) (subtract G X))) as [Hzr Hz0];
    try assumption; try congruence.
  split; [exact Hzr|].
  split; [congruence|]. split; [cbn [shape1 hstack2]; congruence|].
  intros r c Hr Hc. cbv zeta.
  assert (entry 0%Q G r c =
          sum_where (fun r' => (nth r' markets 0 =? nth r markets 0)
                               && (nth r' firms 0 =? nth r firms 0)) X c)
    as HGe.
  { rewrite HG by assumption. apply sum_where_ext. intros r' Hr'.
    rewrite is_Eq_pair_compare, !combine_nth by congruence.
    reflexivity. }
  assert (entry 0%Q Mk r c =
          sum_where (fun r' => nth r' markets 0 =? nth r markets 0) X c)
    as HMe.
  { rewrite HM by assumption. apply sum_where_ext. intros r' Hr'.
    apply is_Eq_Z_compare. }
  assert (entry 0%Q (subtract G X) r c
          = (entry 0%Q G r c - entry 0%Q X r c)%Q) as Hoe
    by (apply entry_subtract; (assumption || congruence || lia)).
  assert (entry 0%Q (subtract (subtract Mk X) (subtract G X)) r c
          = (entry 0%Q Mk r c - entry 0%Q X r c
             - (entry 0%Q G r c - entry 0%Q X r c))%Q) as Hre.
  { rewrite entry_subtract by (assumption || congruence || lia).
    rewrite Hoe. f_equal.
    apply entry_subtract; (assumption || congruence || lia). }
  assert (entry 0%Q (hstack2 (hstack2 X (subtract G X))
                        (subtract (subtract Mk X) (subtract G X)))
            r (shape1 X + c) = entry 0%Q (subtract G X) r c) as Eother.
  { rewrite entry_hstack2_left
      by (try assumption; try congruence; cbn [shape1 hstack2]; lia).
    apply entry_hstack2_right; (assumption || congruence). }
  assert (entry 0%Q (hstack2 (hstack2 X (subtract G X))
                        (subtract (subtract Mk X) (subtract G X)))
            r (shape1 X + shape1 X + c)
          = entry 0%Q (subtract (subtract Mk X) (subtract G X)) r c)
    as Erival.
  { replace (shape1 X + shape1 X)%nat
      with (shape1 (hstack2 X (subtract G X)))
      by (cbn [shape1 hstack2]; congruence).
    apply entry_hstack2_right; (assumption || congruence). }
  rewrite Eother, Erival, Hoe, Hre, HGe, HMe.
  assert (Qsum_split :
    (sum_where (fun r' => (nth r' markets 0 =? nth r markets 0)%Z) X c ==
     sum_where (fun r' => (nth r' markets 0 =? nth r markets 0)%Z
                          && (nth r' firms 0 =? nth r firms 0)%Z) X c +
     sum_where (fun r' => (nth r' markets 0 =? nth r markets 0)%Z
                          && negb (nth r' firms 0 =? nth r firms 0)%Z) X c)%Q)
    by apply Qsum_filter_split.
  assert (Qsum_own :
    (sum_where (fun r' => (nth r' markets 0 =? nth r markets 0)%Z
                          && (nth r' firms 0 =? nth r firms 0)%Z) X c ==
     entry 0%Q X r c +
     sum_where (fun r' => (nth r' markets 0 =? nth r markets 0)%Z
                          && (nth r' firms 0 =? nth r firms 0)%Z
                          && negb (r' =? r)%nat) X c)%Q).
  { unfold sum_where.
    apply (Qsum_filter_remove (fun r' => entry 0%Q X r' c)).
    - apply seq_NoDup.
    - apply in_seq. lia.
    - now rewrite !Z.eqb_refl. }
  repeat split.
  - rewrite entry_hstack2_left
      by (try assumption; try congruence; cbn [shape1 hstack2]; lia).
    apply entry_hstack2_left; (assumption || congruence).
  - rewrite Qsum_own. ring.
  - rewrite Qsum_split. ring.
  - ring.
Qed.

(** X9: [firms_index] selects the column of firm IDs the instruments are
    built from, a negative index counting from the last column: every result
    is a rectangular [[X | other | rival]] whose sums over the same firm and
    over the other firms are taken with the firm IDs of column [firms_index]
    when the index is not negative, and of column [k + firms_index], [k]
    being the number of columns, when it is. *)
Theorem build_blp_instruments_selected_column
  {product_data : Type}
  (extract_matrix : product_data -> string -> option (ndarray Z))
  (_build_matrix : product_data -> ndarray Q)
  (pd : product_data) (firms_index : Z) (mids fids : ndarray Z)
  (B : ndarray Q) :
  extract_matrix pd "market_ids"%string = Some mids ->
  extract_matrix pd "firm_ids"%string = Some fids ->
  rectangular mids ->
  shape1 mids = 1%nat ->
  shape0 mids = shape0 fids ->
  rectangular (_build_matrix pd) ->
  build_blp_instruments extract_matrix (Formulation _build_matrix) pd
    firms_index = Ok B ->
  exists c,
    (c < shape1 fids)%nat /\
    Z.of_nat c = (if 0 <=? firms_index then firms_index
                  else Z.of_nat (shape1 fids) + firms_index) /\
    rectangular B /\
    blp_instruments (flat mids) (column 0 c fids) (_build_matrix pd) B.
Proof.
  intros Hm Hf Hrect H1 Hrows HX HB.
  destruct (build_blp_instruments_result extract_matrix _build_matrix pd
              firms_index mids fids B Hm Hf Hrect H1 Hrows HX HB)
    as [col [Hcol [HBr Hspec]]].
  destruct (flat_take_column_index _ _ _ Hcol) as [c [Hc [Hi Hflat]]].
  exists c. rewrite <- Hflat. auto.
Qed.

Lemma build_blp_instruments_selected_column_witness :
  rectangular merger_market_ids /\
  rectangular merger_characteristics /\
  exists c,
    (c < shape1 merger_firm_ids)%nat /\
    Z.of_nat c = (if 0 <=? -1 then -1
                  else Z.of_nat (shape1 merger_firm_ids) + -1) /\
    rectangular merger_instruments /\
    blp_instruments (flat merger_market_ids) (column 0 c merger_firm_ids)
      merger_characteristics merger_instruments.
Proof.
  assert (rectangular merger_market_ids) as Hm by (repeat constructor).
  assert (rectangular merger_characteristics) as HX by (repeat constructor).
  split; [exact Hm|]. split; [exact HX|].
  apply (build_blp_instruments_selected_column lookup_field
           (fun _ => merger_characteristics) merger_table (-1)
           _ _ _ eq_refl eq_refl Hm eq_refl eq_refl HX).
  vm_compute. reflexivity.
Defined.

(** X10: the instruments returned for a table with one market ID per
    product are a rectangular array with the rows of [X] and three times its
    columns, in which the [other] block of a product is zero when no other
    product has its market and its firm, and its [rival] block is zero when
    every product of its market has its firm. *)
Theorem build_blp_instruments_alone
  {product_data : Type}
  (extract_matrix : product_data -> string -> option (ndarray Z))
  (_build_matrix : product_data -> ndarray Q)
  (pd : product_data) (firms_index : Z) (mids fids : ndarray Z)
  (B : ndarray Q) :
  extract_matrix pd "market_ids"%string = Some mids ->
  extract_matrix pd "firm_ids"%string = Some fids ->
  rectangular mids ->
  shape1 mids = 1%nat ->
  shape0 mids = shape0 fids ->
  rectangular (_build_matrix pd) ->
  build_blp_instruments extract_matrix (Formulation _build_matrix) pd
    firms_index = Ok B ->
  exists firm_column,
    take_column fids firms_index = Ok firm_column /\
    rectangular B /\
    shape0 B = shape0 (_build_matrix pd) /\
    shape1 B = (shape1 (_build_matrix pd) + shape1 (_build_matrix pd)
                + shape1 (_build_matrix pd))%nat /\
    forall r c,
      (r < shape0 (_build_matrix pd))%nat ->
      (c < shape1 (_build_matrix pd))%nat ->
      let markets := flat mids in
      let firms := flat firm_column in
      ((forall r', (r' < shape0 (_build_matrix pd))%nat -> r' <> r ->
                   nth r' markets 0 = nth r markets 0 ->
                   nth r' firms 0 <> nth r firms 0) ->
       (entry 0%Q B r (shape1 (_build_matrix pd) + c) == 0)%Q) /\
      ((forall r', (r' < shape0 (_build_matrix pd))%nat ->
                   nth r' markets 0 = nth r markets 0 ->
                   nth r' firms 0 = nth r firms 0) ->
       (entry 0%Q B r (shape1 (_build_matrix pd)
                       + shape1 (_build_matrix pd) + c) == 0)%Q).
Proof.
  intros Hm Hf Hrect H1 Hrows HX HB.
  destruct (build_blp_instruments_result extract_matrix _build_matrix pd
              firms_index mids fids B Hm Hf Hrect H1 Hrows HX HB)
    as [col [Hcol [HBr [HB0 [HB1 Hspec]]]]].
  exists col. split; [exact Hcol|].
  split; [exact HBr|]. split; [exact HB0|]. split; [exact HB1|].
  intros r c Hr Hc. cbv zeta.
  destruct (Hspec r c Hr Hc) as [_ [Hother [Hrival _]]].
  cbv zeta in Hother, Hrival. split.
  - intros Halone. rewrite Hother, sum_where_none; [reflexivity|].
    intros r' Hr'.
    destruct (Nat.eqb_spec r' r) as [->|Hne];
      [now rewrite andb_false_r|].
    destruct (Z.eqb_spec (nth r' (flat mids) 0) (nth r (flat mids) 0))
      as [Em|Em]; [|reflexivity].
    destruct (Z.eqb_spec (nth r' (flat col) 0) (nth r (flat col) 0))
      as [Ef|Ef]; [|reflexivity].
    now apply (Halone r' Hr' Hne Em) in Ef.
  - intros Hall. rewrite Hrival, sum_where_none; [reflexivity|].
    intros r' Hr'.
    destruct (Z.eqb_spec (nth r' (flat mids) 0) (nth r (flat mids) 0))
      as [Em|Em]; [|reflexivity].
    rewrite (Hall r' Hr' Em), Z.eqb_refl. reflexivity.
Qed.

Lemma build_blp_instruments_alone_witness :
  rectangular merger_market_ids /\
  rectangular merger_characteristics /\
  exists firm_column,
    take_column merger_firm_ids (-1) = Ok firm_column /\
    rectangular merger_instruments /\
    shape0 merger_instruments = shape0 merger_characteristics /\
    shape1 merger_instruments
    = (shape1 merger_characteristics + shape1 merger_characteristics
       + shape1 merger_characteristics)%nat /\
    forall r c,
      (r < shape0 merger_characteristics)%nat ->
      (c < shape1 merger_characteristics)%nat ->
      let markets := flat merger_market_ids in
      let firms := flat firm_column in
      ((forall r', (r' < shape0 merger_characteristics)%nat -> r' <> r ->
                   nth r' markets 0 = nth r markets 0 ->
                   nth r' firms 0 <> nth r firms 0) ->
       (entry 0%Q merger_instruments r (shape1 merger_characteristics + c)
        == 0)%Q) /\
      ((forall r', (r' < shape0 merger_characteristics)%nat ->
                   nth r' markets 0 = nth r markets 0 ->
                   nth r' firms 0 = nth r firms 0) ->
       (entry 0%Q merger_instruments r
          (shape1 merger_characteristics + shape1 merger_characteristics + c)
        == 0)%Q).
Proof.
  assert (rectangular merger_market_ids) as Hm by (repeat constructor).
  assert (rectangular merger_characteristics) as HX by (repeat constructor).
  split; [exact Hm|]. split; [exact HX|].
  apply (build_blp_instruments_alone lookup_field
           (fun _ => merger_characteristics) merger_table (-1)
           _ _ _ eq_refl eq_refl Hm eq_refl eq_refl HX).
  vm_compute. reflexivity.
Defined.
